(** * hall-of-shame: memory allocation versus use, ranked

    A shallow embedding of [main.go] of the cf CLI plugin: the data model
    (lines 19-84), the two platform calls [GetAppStats] and [GetAllApps]
    (lines 156-185), the body of the goroutine that [Run] starts for every
    application (lines 102-135), the bounded fan-out of [Run] as a
    transition system (lines 97-139) and the final ranking (lines 39-41 and
    143).

    Go's [int] is taken as the 64-bit two's complement integer of the
    platforms the plugin is built for; [float64] is IEEE 754 binary64, given
    by the Standard Library's [SpecFloat] with [prec = 53], [emax = 1024].

    The collaborators of the plugin are outside the embedding: the progress
    bar and the table writer only receive values, and the command channel,
    [json.Unmarshal], [sort.Sort] and the sized wait group enter as
    parameters or by their contract. *)

From Stdlib Require Import ZArith Lia Ascii String Floats.SpecFloat Sorting.Sorted.
From stdpp Require Import base option list sorting gmap strings pretty fin_maps.

Local Open Scope Z_scope.

(** ** Machine integers and floats *)

Module Int.

Definition min : Z := - 2 ^ 63.
Definition max : Z := 2 ^ 63 - 1.

(** Two's complement wrap-around of a mathematical integer into [int]. *)
Definition wrap (z : Z) : Z := (z + 2 ^ 63) mod 2 ^ 64 - 2 ^ 63.

Definition inRange (z : Z) : Prop := min <= z <= max.

(** [a + b] on [int]. *)
Definition add (a b : Z) : Z := wrap (a + b).

End Int.

Module F64.

Definition prec : Z := 53.
Definition emax : Z := 1024.

(** [float64(n)] for an integer [n]: round to nearest, ties to even. *)
Definition ofInt (n : Z) : spec_float := binary_normalize prec emax n 0 false.

(** [x / y] on [float64]: never panics, a zero divisor gives an infinity
    or NaN. *)
Definition div (x y : spec_float) : spec_float := SFdiv prec emax x y.

(** [x < y] on [float64]; false as soon as one side is NaN. *)
Definition ltb (x y : spec_float) : bool := SFltb x y.

(** [x >= y] on [float64], that is [y <= x]; false when one side is NaN. *)
Definition geb (x y : spec_float) : bool := SFleb y x.

Definition isNaN (x : spec_float) : bool :=
  match x with S754_nan => true | _ => false end.

End F64.

(** ** Run-time panics

    The two ways the goroutine body can panic: dereferencing a nil pointer
    ([cfApp], [cfApp.Metadata], [cfApp.Entity]) and dividing an [int] by
    zero ([totalUsage / len(stats)]); indexing a slice out of its range is
    the panic of [byRatio]'s methods. *)

Inductive panic : Type :=
| NilPointerDereference
| IntegerDivideByZero
| IndexOutOfRange.

Inductive result (A : Type) : Type :=
| Ok (a : A)
| Panic (p : panic).

Arguments Ok {A} a.
Arguments Panic {A} p.

Definition bind {A B : Type} (r : result A) (k : A -> result B) : result B :=
  match r with
  | Ok a => k a
  | Panic p => Panic p
  end.

Notation "x <-! r ; k" := (bind r (fun x => k))
  (at level 100, r at next level, k at level 200, right associativity).

(** [p.f] for a pointer [p]: nil is [None]. *)
Definition deref {A : Type} (p : option A) : result A :=
  match p with
  | Some a => Ok a
  | None => Panic NilPointerDereference
  end.

(** [a / b] on [int]: truncated towards zero, panics on a zero divisor. *)
Definition intDiv (a b : Z) : result Z :=
  if b =? 0 then Panic IntegerDivideByZero else Ok (Int.wrap (Z.quot a b)).

(** ** Data model (main.go, lines 23-82) *)

Record appStatSummary : Type := {
  Name : string;
  GUID : string;
  Space : string;
  Instances : Z;
  MemoryAlloc : Z;
  AvgMemoryUse : Z;
  Ratio : spec_float
}.

Record AppSearchMetaData : Type := {
  Guid : string;
  Url : string
}.

Record AppSearchEntity : Type := {
  entityName : string;
  entityInstances : Z;
  SpaceGuid : string
}.

(** Both fields are pointers, nil when the JSON object lacks the key. *)
Record AppSearchResoures : Type := {
  Metadata : option AppSearchMetaData;
  Entity : option AppSearchEntity
}.

(** A slice of pointers: an entry is nil for a JSON [null]. *)
Record AppSearchResults : Type := {
  Resources : list (option AppSearchResoures)
}.

Record AppStatUsage : Type := {
  usageTime : Z;
  CPU : spec_float;
  Mem : Z;
  Disk : Z
}.

Record AppStatStats : Type := {
  statsName : string;
  Uris : list string;
  Host : string;
  Port : Z;
  Uptime : Z;
  MemQuota : Z;
  DiskQuota : Z;
  FdsQuota : Z;
  Usage : AppStatUsage
}.

Record AppStat : Type := {
  State : string;
  IsolationSeg : string;
  Stats : AppStatStats
}.

(** The zero value of [AppStat], what [stats[k]] is for a missing key. *)
Definition zeroAppStat : AppStat :=
  {| State := EmptyString;
     IsolationSeg := EmptyString;
     Stats := {| statsName := EmptyString; Uris := []; Host := EmptyString;
                 Port := 0; Uptime := 0; MemQuota := 0; DiskQuota := 0;
                 FdsQuota := 0;
                 Usage := {| usageTime := 0; CPU := S754_zero false;
                             Mem := 0; Disk := 0 |} |} |}.

(** [stats[k]] on a Go map: the zero value when [k] is absent (also on a
    nil map). *)
Definition index (stats : gmap string AppStat) (k : string) : AppStat :=
  default zeroAppStat (stats !! k).

(** [len(stats)]. *)
Definition len (stats : gmap string AppStat) : Z := Z.of_nat (size stats).

(** ** The platform: what the plugin reaches through its collaborators

    [CliCommandWithoutTerminalOutput] is the method of [plugin.CliConnection]
    the code calls: the output lines and an error, nil being [None].
    [unmarshalStats] and [unmarshalApps] are [json.Unmarshal] at the two
    types it is used at: the value it leaves in the target (filled as far as
    decoding went) and its error. *)

Record error : Type := { errorText : string }.

Record Platform : Type := {
  CliCommandWithoutTerminalOutput : list string -> list string * option error;
  unmarshalStats : string -> gmap string AppStat * option error;
  unmarshalApps : string -> AppSearchResults * option error
}.

(** [strings.Join(output, "")]. *)
Definition join (output : list string) : string :=
  fold_right String.append EmptyString output.

(** [fmt.Sprintf("/v2/apps/%v/stats", appGuid)]. *)
Definition statsQuery (appGuid : string) : string :=
  String.append "/v2/apps/" (String.append appGuid "/stats").

(** main.go, lines 156-173. The transport error is dropped ([output, _ :=]);
    [json.Compact] only prints its error and its buffer is not read again;
    the value returned is the map and the error of [json.Unmarshal]. *)
Definition GetAppStats (P : Platform) (appGuid : string)
  : gmap string AppStat * option error :=
  let cmd := ["curl"; statsQuery appGuid] in
  let '(output, _) := CliCommandWithoutTerminalOutput P cmd in
  let '(statResult, err) := unmarshalStats P (join output) in
  (statResult, err).

(** main.go, lines 175-185. Both the transport error and the error of
    [json.Unmarshal] are dropped; the error returned is the literal nil. *)
Definition GetAllApps (P : Platform) : AppSearchResults * option error :=
  let cmd := ["curl"; "/v2/apps"] in
  let '(output, _) := CliCommandWithoutTerminalOutput P cmd in
  let '(res, _) := unmarshalApps P (join output) in
  (res, None).

(** ** The goroutine body (main.go, lines 102-135) *)

(** Lines 118-121 over the entries in the order the [range] visits them. *)
Definition sumUsage (visited : list AppStat) : Z :=
  fold_left (fun totalUsage stat => Int.add totalUsage (Mem (Usage (Stats stat))))
            visited 0.

(** The entries of the map; Go leaves the order of a [range] over a map
    unspecified, [sumUsage_Permutation] below shows it does not matter. *)
Definition entries (stats : gmap string AppStat) : list AppStat :=
  (map_to_list stats).*2.

Definition totalUsage (stats : gmap string AppStat) : Z :=
  sumUsage (entries stats).

(** Lines 112-131, once the fetch has succeeded: [Ok None] is an early
    [return], [Ok (Some stat)] the summary handed to [append]. The struct
    literal evaluates its fields in the order written. *)
Definition summarise (cfApp : AppSearchResoures) (md : AppSearchMetaData)
    (stats : gmap string AppStat) : result (option appStatSummary) :=
  if bool_decide (State (index stats "0") ≠ "RUNNING") then Ok None else
  let memAlloc := MemQuota (Stats (index stats "0")) in
  let totalUsage := totalUsage stats in
  en <-! deref (Entity cfApp);
  avg <-! intDiv totalUsage (len stats);
  avg' <-! intDiv totalUsage (len stats);
  Ok (Some {| Name := entityName en;
              GUID := Guid md;
              Instances := entityInstances en;
              MemoryAlloc := memAlloc;
              Space := SpaceGuid en;
              AvgMemoryUse := avg;
              Ratio := F64.div (F64.ofInt memAlloc) (F64.ofInt avg') |}).

(** Lines 105-133 for one element of [res.Resources]. *)
Definition worker (P : Platform) (app : option AppSearchResoures)
  : result (option appStatSummary) :=
  cfApp <-! deref app;
  md <-! deref (Metadata cfApp);
  let '(stats, err) := GetAppStats P (Guid md) in
  match err with
  | Some _ => Ok None
  | None => summarise cfApp md stats
  end.

(** ** Ranking (main.go, lines 33-41 and 143) *)

(** [a[i]] on a slice. *)
Definition at_ (a : list appStatSummary) (i : nat) : result appStatSummary :=
  match a !! i with
  | Some x => Ok x
  | None => Panic IndexOutOfRange
  end.

(** The three methods of [byRatio], lines 39-41. *)
Definition Len (a : list appStatSummary) : nat := length a.

Definition Swap (a : list appStatSummary) (i j : nat)
  : result (list appStatSummary) :=
  x <-! at_ a i;
  y <-! at_ a j;
  Ok (<[j := x]> (<[i := y]> a)).

Definition LessAt (a : list appStatSummary) (i j : nat) : result bool :=
  y <-! at_ a j;
  x <-! at_ a i;
  Ok (F64.ltb (Ratio y) (Ratio x)).

(** [byRatio.Less(i, j)] for [a[i] = x] and [a[j] = y]:
    [a[j].Ratio < a[i].Ratio], so the larger ratio sorts first. *)
Definition Less (x y : appStatSummary) : bool := F64.ltb (Ratio y) (Ratio x).

(** What the documentation of [sort.Interface] asks of [Less] for the
    result of [sort.Sort] to be sorted, over the elements of the slice. *)
Record Ordering {A : Type} (less : A -> A -> bool) (l : list A) : Prop := {
  less_irrefl : forall x, x ∈ l -> less x x = false;
  less_trans : forall x y z, x ∈ l -> y ∈ l -> z ∈ l ->
    less x y = true -> less y z = true -> less x z = true;
  less_negtrans : forall x y z, x ∈ l -> y ∈ l -> z ∈ l ->
    less x y = false -> less y z = false -> less x z = false
}.

(** Sorted the way [sort.Sort] leaves a slice: no later element is
    [less] than an earlier one. *)
Definition Ascending {A : Type} (less : A -> A -> bool) (l : list A) : Prop :=
  StronglySorted (fun x y => less y x = false) l.

(** [sort.Sort] by its contract: it changes the slice through [Swap] only,
    so the result is a permutation whatever [Less] is, and the result is
    sorted when [Less] is an ordering. The sort need not be stable. *)
Record Sorter : Type := {
  Sort : forall A : Type, (A -> A -> bool) -> list A -> list A;
  Sort_Permutation : forall (A : Type) (less : A -> A -> bool) (l : list A),
    Sort A less l ≡ₚ l;
  Sort_Ascending : forall (A : Type) (less : A -> A -> bool) (l : list A),
    Ordering less l -> Ascending less (Sort A less l)
}.

(** Insertion sort as [sort.Sort] runs it on a short slice: the element at
    [j] moves left while [Less(j, j-1)]. The sorted prefix is kept
    reversed, its head being the element at [j-1]. *)
Fixpoint moveLeft {A : Type} (less : A -> A -> bool) (x : A) (prefix : list A)
  : list A :=
  match prefix with
  | [] => [x]
  | y :: rest => if less x y then y :: moveLeft less x rest else x :: y :: rest
  end.

Definition insertionSort (A : Type) (less : A -> A -> bool) (l : list A)
  : list A :=
  rev (fold_left (fun prefix x => moveLeft less x prefix) l []).

(** The table is in descending order of ratio: [a.Ratio >= b.Ratio] for
    every two adjacent rows [a], [b]. *)
Fixpoint Descending (rows : list appStatSummary) : Prop :=
  match rows with
  | a :: (b :: _) as rest => F64.geb (Ratio a) (Ratio b) = true /\ Descending rest
  | _ => True
  end.

Fixpoint descendingb (rows : list appStatSummary) : bool :=
  match rows with
  | a :: (b :: _) as rest => F64.geb (Ratio a) (Ratio b) && descendingb rest
  | _ => true
  end.

(** ** The fan-out of [Run] (main.go, lines 97-139)

    The main goroutine walks [res.Resources]; [wg.Add()] blocks while
    [limit] goroutines are between their [Add] and their [Done]; each
    goroutine runs the body and, when it has a summary, appends it to
    [appStats]; [wg.Wait()] returns once the loop is over and no goroutine
    is left.

    The append of line 133 takes no lock. A goroutine is inside it from
    the load of the slice to the store of the extended slice. As long as
    no other goroutine is inside it at the same time, the append is what
    it is in a sequential program. When two goroutines are inside it at
    the same time, the code has a data race on the three words of the
    slice header and on the backing array the two share, and then:
    - a store can overwrite the one made in between, and a summary is
      lost (the steps [Advance] alone give this);
    - the rows of the slice can be torn or zero, mixed from the writes of
      the two goroutines ([Tear]: the slice becomes any list of rows);
    - a goroutine can hold a torn header or see its element overwritten
      ([Mangle]: what it holds becomes any row and any list of rows);
    - a torn header can send a write outside the backing array, at once
      or in a later append, after which nothing is known of the program
      ([Fault], which stands for the later consequences as well).
    These three events are enabled only while two goroutines are inside
    the append ([overlap]); what they put in place is not constrained. A
    goroutine that enters the append after another has left it sees what
    that one stored. *)

Definition limit : nat := 2.

Inductive goroutine : Type :=
| Fetching (app : option AppSearchResoures)
| Loading (stat : appStatSummary)
| Storing (stat : appStatSummary) (loaded : list appStatSummary).

Inductive status : Type :=
| Active
| Crashed (p : panic)
| Joined
| Corrupted.

Record state : Type := {
  pending : list (option AppSearchResoures);
  running : list goroutine;
  appStats : list appStatSummary;
  finished : nat;
  phase : status
}.

Inductive event : Type :=
| Dispatch
| Advance (i : nat)
| Join
| Tear (rows : list appStatSummary)
| Mangle (i : nat) (stat : appStatSummary) (loaded : list appStatSummary)
| Fault.

Definition start (apps : list (option AppSearchResoures)) : state :=
  {| pending := apps; running := []; appStats := []; finished := 0;
     phase := Active |}.

(** The goroutine at [i] ends: its deferred [wg.Done()] frees the slot. *)
Definition retire (i : nat) (stats : list appStatSummary) (st : state) : state :=
  {| pending := pending st; running := delete i (running st);
     appStats := stats; finished := S (finished st); phase := phase st |}.

Definition become (i : nat) (g : goroutine) (st : state) : state :=
  {| pending := pending st; running := <[i := g]> (running st);
     appStats := appStats st; finished := finished st; phase := phase st |}.

Definition enter (s : status) (st : state) : state :=
  {| pending := pending st; running := running st;
     appStats := appStats st; finished := finished st; phase := s |}.

(** One step of the goroutine at [i]: the body up to line 132, then the
    two halves of the append of line 133, the load of [appStats] and the
    store of the extended slice. These are the steps of the goroutine
    itself; what a second goroutine inside the append can do to the slice
    and to what this one holds between the two halves is given by the
    events [Tear], [Mangle] and [Fault] of [step]. *)
Definition advance (P : Platform) (i : nat) (g : goroutine) (st : state) : state :=
  match g with
  | Fetching app =>
      match worker P app with
      | Panic p => enter (Crashed p) st
      | Ok None => retire i (appStats st) st
      | Ok (Some stat) => become i (Loading stat) st
      end
  | Loading stat => become i (Storing stat (appStats st)) st
  | Storing stat loaded => retire i (loaded ++ [stat]) st
  end.

(** The goroutine is inside the append: it has loaded the slice and has
    not stored it yet. *)
Definition storing (g : goroutine) : bool :=
  match g with
  | Storing _ _ => true
  | _ => false
  end.

(** The number of goroutines inside the append, and the data race: two
    of them at the same time. *)
Definition inAppend (st : state) : nat :=
  length (List.filter storing (running st)).

Definition overlap (st : state) : bool :=
  bool_decide (2 <= inAppend st)%nat.

(** The slice after a racing write. *)
Definition tear (rows : list appStatSummary) (st : state) : state :=
  {| pending := pending st; running := running st;
     appStats := rows; finished := finished st; phase := phase st |}.

(** One step; [None] when the event is not enabled in [st]. *)
Definition step (P : Platform) (ev : event) (st : state) : option state :=
  match phase st with
  | Active =>
      match ev with
      | Dispatch =>
          match pending st with
          | app :: rest =>
              if bool_decide (length (running st) < limit)%nat
              then Some {| pending := rest;
                           running := running st ++ [Fetching app];
                           appStats := appStats st;
                           finished := finished st;
                           phase := Active |}
              else None
          | [] => None
          end
      | Advance i =>
          match running st !! i with
          | Some g => Some (advance P i g st)
          | None => None
          end
      | Join =>
          match pending st, running st with
          | [], [] => Some (enter Joined st)
          | _, _ => None
          end
      | Tear rows =>
          if overlap st then Some (tear rows st) else None
      | Mangle i stat loaded =>
          if overlap st then
            match running st !! i with
            | Some (Storing _ _) => Some (become i (Storing stat loaded) st)
            | _ => None
            end
          else None
      | Fault =>
          if overlap st then Some (enter Corrupted st) else None
      end
  | _ => None
  end.

(** A schedule is a list of events; one that is not enabled when its turn
    comes is passed over. *)
Definition perform (P : Platform) (st : state) (ev : event) : state :=
  default st (step P ev st).

Definition exec (P : Platform) (sched : list event) (st : state) : state :=
  fold_left (perform P) sched st.

(** No two goroutines are ever inside the append at the same time: the
    data race does not occur in the run of [sched] from [st]. *)
Fixpoint orderly (P : Platform) (sched : list event) (st : state) : bool :=
  negb (overlap st) &&
  match sched with
  | [] => true
  | ev :: rest => orderly P rest (perform P st ev)
  end.

(** The schedule that runs the goroutines one after the other. *)
Definition sequential (n : nat) : list event :=
  mjoin (replicate n [Dispatch; Advance 0; Advance 0; Advance 0]) ++ [Join].

(** The number of goroutines whose [GetAppStats] call is still to return. *)
Definition isFetching (g : goroutine) : bool :=
  match g with
  | Fetching _ => true
  | _ => false
  end.

Definition inFlight (st : state) : nat :=
  length (List.filter isFetching (running st)).

(** ** [Run] (main.go, lines 86-154) *)

Inductive outcome : Type :=
| Panicked (p : option panic)
| Blocked (st : state)
| Returned (rows : list appStatSummary)
| Undefined.

(** [Panicked None] is the [panic(err)] of line 92; [Blocked] is a schedule
    that ends before [wg.Wait()] returns; [Returned rows] are the rows
    handed to the table writer, in order; [Undefined] is a run in which a
    racing append has written outside its array. *)
Definition Run (P : Platform) (srt : Sorter) (sched : list event) : outcome :=
  let '(res, err) := GetAllApps P in
  match err with
  | Some _ => Panicked None
  | None =>
      let st := exec P sched (start (Resources res)) in
      match phase st with
      | Crashed p => Panicked (Some p)
      | Active => Blocked st
      | Joined => Returned (Sort srt appStatSummary Less (appStats st))
      | Corrupted => Undefined
      end
  end.

(** ** Scripted platforms for the examples

    A platform given by its answers: what the command channel returns for a
    path, and what [json.Unmarshal] leaves for a body. A path that is not
    listed fails in transport with no output; a body that is not listed is
    the syntax error [json.Unmarshal] gives on the empty input. Bodies are
    written with ['] for the JSON quote. *)

Definition jsonQuote (c : ascii) : ascii :=
  if Ascii.eqb c "'"%char then ascii_of_nat 34 else c.

Fixpoint json (body : string) : string :=
  match body with
  | EmptyString => EmptyString
  | String c rest => String (jsonQuote c) (json rest)
  end.

Fixpoint assoc {V : Type} (k : string) (table : list (string * V)) : option V :=
  match table with
  | [] => None
  | (k', v) :: rest => if String.eqb k k' then Some v else assoc k rest
  end.

Definition transportError : error := {| errorText := "connection refused" |}.
Definition syntaxError : error := {| errorText := "unexpected end of JSON input" |}.

Definition scripted
    (answers : list (string * (list string * option error)))
    (statsBodies : list (string * gmap string AppStat))
    (appsBodies : list (string * AppSearchResults)) : Platform :=
  {| CliCommandWithoutTerminalOutput := fun cmd =>
       match cmd with
       | [_; path] => default ([], Some transportError) (assoc path answers)
       | _ => ([], Some transportError)
       end;
     unmarshalStats := fun body =>
       match assoc body statsBodies with
       | Some stats => (stats, None)
       | None => (∅, Some syntaxError)
       end;
     unmarshalApps := fun body =>
       match assoc body appsBodies with
       | Some res => (res, None)
       | None => ({| Resources := [] |}, Some syntaxError)
       end |}.

(** An element of [resources] with both pointers set. *)
Definition resource (guid name space : string) (instances : Z)
  : option AppSearchResoures :=
  Some {| Metadata := Some {| Guid := guid; Url := EmptyString |};
          Entity := Some {| entityName := name; entityInstances := instances;
                            SpaceGuid := space |} |}.

(** An instance entry with the three fields the code reads; the others
    keep their zero value. *)
Definition instance (state : string) (memQuota mem : Z) : AppStat :=
  {| State := state;
     IsolationSeg := EmptyString;
     Stats := {| statsName := EmptyString; Uris := []; Host := EmptyString;
                 Port := 0; Uptime := 0; MemQuota := memQuota; DiskQuota := 0;
                 FdsQuota := 0;
                 Usage := {| usageTime := 0; CPU := S754_zero false;
                             Mem := mem; Disk := 0 |} |} |}.

Definition resourceBody (guid name space : string) : string :=
  json ("{'metadata':{'guid':'" +:+ guid +:+ "'},'entity':{'name':'" +:+ name
        +:+ "','instances':1,'space_guid':'" +:+ space +:+ "'}}").

Definition instanceBody (key state memQuota mem : string) : string :=
  json ("'" +:+ key +:+ "':{'state':'" +:+ state +:+ "','stats':{'mem_quota':"
        +:+ memQuota +:+ ",'usage':{'mem':" +:+ mem +:+ "}}}").

(** One application, [web], with three running instances using 100, 200
    and 300 bytes of a quota of 600. *)
Definition webStats : gmap string AppStat :=
  <["0" := instance "RUNNING" 600 100]>
  (<["1" := instance "RUNNING" 600 200]>
  (<["2" := instance "RUNNING" 600 300]> ∅)).

Definition webStatsBody : string :=
  "{" +:+ instanceBody "0" "RUNNING" "600" "100" +:+ ","
      +:+ instanceBody "1" "RUNNING" "600" "200" +:+ ","
      +:+ instanceBody "2" "RUNNING" "600" "300" +:+ "}".

(** [pair]: two running instances using 1 and 2 bytes of a quota of 3. *)
Definition pairStats : gmap string AppStat :=
  <["0" := instance "RUNNING" 3 1]> (<["1" := instance "RUNNING" 3 2]> ∅).

Definition pairStatsBody : string :=
  "{" +:+ instanceBody "0" "RUNNING" "3" "1" +:+ ","
      +:+ instanceBody "1" "RUNNING" "3" "2" +:+ "}".

(** [idle]: one running instance that reports no memory in use. *)
Definition idleStats : gmap string AppStat :=
  <["0" := instance "RUNNING" 1024 0]> ∅.

Definition idleStatsBody : string :=
  "{" +:+ instanceBody "0" "RUNNING" "1024" "0" +:+ "}".

(** [void]: one running instance with no quota and no memory in use. *)
Definition voidStats : gmap string AppStat :=
  <["0" := instance "RUNNING" 0 0]> ∅.

Definition voidStatsBody : string :=
  "{" +:+ instanceBody "0" "RUNNING" "0" "0" +:+ "}".

(** [down]: instance 0 has crashed while instance 1 runs and uses memory. *)
Definition downStats : gmap string AppStat :=
  <["0" := instance "CRASHED" 512 0]> (<["1" := instance "RUNNING" 512 256]> ∅).

Definition downStatsBody : string :=
  "{" +:+ instanceBody "0" "CRASHED" "512" "0" +:+ ","
      +:+ instanceBody "1" "RUNNING" "512" "256" +:+ "}".

Definition statsBodies : list (string * gmap string AppStat) :=
  [(webStatsBody, webStats); (pairStatsBody, pairStats);
   (idleStatsBody, idleStats); (voidStatsBody, voidStats);
   (downStatsBody, downStats); ("{}"%string, ∅)].

(** The answers of the stats endpoint: [none] answers the empty object,
    [stale] answers the empty object and a transport error, [gone] is not
    listed and so fails in transport with no output. *)
Definition statsAnswers : list (string * (list string * option error)) :=
  [(statsQuery "web", ([webStatsBody], None));
   (statsQuery "pair", ([pairStatsBody], None));
   (statsQuery "idle", ([idleStatsBody], None));
   (statsQuery "void", ([voidStatsBody], None));
   (statsQuery "down", ([downStatsBody], None));
   (statsQuery "none", (["{}"%string], None));
   (statsQuery "stale", (["{}"%string], Some transportError))].

Fixpoint commaSeparated (items : list string) : string :=
  match items with
  | [] => EmptyString
  | [item] => item
  | item :: rest => item +:+ "," +:+ commaSeparated rest
  end.

Definition listingBody (guids : list string) : string :=
  json "{'resources':["
  +:+ commaSeparated ((fun g => resourceBody g g "space") <$> guids)
  +:+ "]}".

Definition listing (guids : list string) : AppSearchResults :=
  {| Resources := (fun g => resource g g "space" 1) <$> guids |}.

(** The platform whose listing holds the applications [guids]. *)
Definition demo (guids : list string) : Platform :=
  scripted (("/v2/apps"%string, ([listingBody guids], None)) :: statsAnswers)
           statsBodies
           [(listingBody guids, listing guids)].

(** The row [Run] prints for the application [guid] of a [demo] platform. *)
Definition row (guid : string) (alloc avg : Z) (ratio : spec_float)
  : appStatSummary :=
  {| Name := guid; GUID := guid; Space := "space"; Instances := 1;
     MemoryAlloc := alloc; AvgMemoryUse := avg; Ratio := ratio |}.

(** The [float64] constants of the examples. *)
Definition three : spec_float := F64.ofInt 3.
Definition positiveInfinity : spec_float := S754_infinity false.

(** A schedule in which the goroutines of the first two elements both
    load [appStats] before either stores it. *)
Definition overlapping : list event :=
  [Dispatch; Dispatch;
   Advance 0; Advance 1;   (* both bodies have their summary *)
   Advance 0; Advance 1;   (* both load the empty slice *)
   Advance 1; Advance 0;   (* the second stores, then the first *)
   Join].

(** A schedule in which the goroutines of the first two elements fetch
    at the same time and append one after the other. *)
Definition interleaved : list event :=
  [Dispatch; Dispatch;
   Advance 1; Advance 0;   (* both bodies have their summary *)
   Advance 0; Advance 0;   (* the first loads and stores *)
   Advance 0; Advance 0;   (* then the second *)
   Join].

(** A schedule in which the two appends overlap and the element the
    first goroutine holds is overwritten in part by the second. *)
Definition torn : list event :=
  [Dispatch; Dispatch;
   Advance 0; Advance 1;   (* both bodies have their summary *)
   Advance 0; Advance 1;   (* both load the empty slice *)
   Mangle 0 (row "pair" 600 1 three) [];
   Advance 1; Advance 0;   (* the second stores, then the first *)
   Join].

(** ** Notions the properties are stated with *)

(** The platform [P] with [e] as the error of every command; the output
    lines and the decoders are those of [P]. *)
Definition withTransportError (P : Platform) (e : option error) : Platform :=
  {| CliCommandWithoutTerminalOutput := fun cmd =>
       ((CliCommandWithoutTerminalOutput P cmd).1, e);
     unmarshalStats := unmarshalStats P;
     unmarshalApps := unmarshalApps P |}.

(** The memory an instance reports in use. *)
Definition usage (stat : AppStat) : Z := Mem (Usage (Stats stat)).

(** The same ratio computed from the exact mean [total / count] instead of
    the truncated average. *)
Definition exactMeanRatio (alloc total count : Z) : spec_float :=
  F64.div (F64.ofInt alloc) (F64.div (F64.ofInt total) (F64.ofInt count)).

(** The sum of the usage as a mathematical integer. *)
Definition exactUsage (visited : list AppStat) : Z :=
  foldr (fun stat acc => Mem (Usage (Stats stat)) + acc) 0 visited.

(** The summary [summarise] builds when it builds one. *)
Definition summaryOf (en : AppSearchEntity) (md : AppSearchMetaData)
    (stats : gmap string AppStat) : appStatSummary :=
  {| Name := entityName en;
     GUID := Guid md;
     Instances := entityInstances en;
     MemoryAlloc := MemQuota (Stats (index stats "0"));
     Space := SpaceGuid en;
     AvgMemoryUse := Z.quot (totalUsage stats) (len stats);
     Ratio := F64.div (F64.ofInt (MemQuota (Stats (index stats "0"))))
                      (F64.ofInt (Z.quot (totalUsage stats) (len stats))) |}.

(** Where a summary comes from: an element of the listing with both
    pointers set, whose fetch succeeded and whose instance 0 is running. *)
Inductive Produced (P : Platform) (app : option AppSearchResoures)
    (s : appStatSummary) : Prop :=
| produced (cfApp : AppSearchResoures) (md : AppSearchMetaData)
    (en : AppSearchEntity) :
    app = Some cfApp ->
    Metadata cfApp = Some md ->
    Entity cfApp = Some en ->
    (GetAppStats P (Guid md)).2 = None ->
    State (index (GetAppStats P (Guid md)).1 "0") = "RUNNING"%string ->
    s = summaryOf en md (GetAppStats P (Guid md)).1 ->
    Produced P app s.

(** The position of a float that is not NaN in the order of [<]: sign
    class, then exponent, then mantissa, compared lexicographically. *)
Definition key (x : spec_float) : Z * Z * Z :=
  match x with
  | S754_zero _ => (0, 0, 0)
  | S754_infinity false => (2, 0, 0)
  | S754_infinity true => (-2, 0, 0)
  | S754_finite false m e => (1, e, Zpos m)
  | S754_finite true m e => (-1, - e, Zneg m)
  | S754_nan => (0, 0, 0)
  end.

Definition keyLt (a b : Z * Z * Z) : Prop :=
  a.1.1 < b.1.1 \/
  (a.1.1 = b.1.1 /\ (a.1.2 < b.1.2 \/ (a.1.2 = b.1.2 /\ a.2 < b.2))).

(** The sorted prefix of [insertionSort], kept reversed. *)
Definition PrefixSorted {A : Type} (less : A -> A -> bool) (prefix : list A)
  : Prop :=
  StronglySorted (fun u v => less u v = false) prefix.

(** ** What holds in every state of the fan-out *)

(** [s] is the summary of an element of the listing. *)
Definition Origin (P : Platform) (apps : list (option AppSearchResoures))
    (s : appStatSummary) : Prop :=
  exists app, app ∈ apps /\ Produced P app s.

(** A goroutine that has not run its body yet holds an element of the
    listing. *)
Definition Sound (P : Platform) (apps : list (option AppSearchResoures))
    (g : goroutine) : Prop :=
  match g with
  | Fetching app => app ∈ apps
  | _ => True
  end.

Record Invariant (P : Platform) (apps : list (option AppSearchResoures))
    (st : state) : Prop := {
  inv_limit : (length (running st) <= limit)%nat;
  inv_count :
    (length (pending st) + length (running st) + finished st = length apps)%nat;
  inv_pending : pending st ⊆ apps;
  inv_running : Forall (Sound P apps) (running st);
  inv_joined : phase st = Joined -> pending st = [] /\ running st = [];
  inv_crashed : forall p, phase st = Crashed p ->
    exists app, app ∈ apps /\ worker P app = Panic p
}.

(** The summaries of the elements of a listing, in its order. *)
Definition summaries (P : Platform) (apps : list (option AppSearchResoures))
  : list appStatSummary :=
  omap (fun app => match worker P app with Ok r => r | Panic _ => None end) apps.

(** No element of the listing makes the body panic. *)
Definition Calm (P : Platform) (apps : list (option AppSearchResoures)) : Prop :=
  Forall (fun app => exists r, worker P app = Ok r) apps.

(** The steps a goroutine has left, and those of all goroutines. *)
Definition remaining (g : goroutine) : nat :=
  match g with
  | Fetching _ => 3
  | Loading _ => 2
  | Storing _ _ => 1
  end.

Definition backlog (st : state) : nat :=
  foldr (fun g n => (remaining g + n)%nat) 0%nat (running st).

(** A schedule that brings a state to the end of [Run]: the goroutines
    that run are finished first, the rest of the listing follows one by
    one. *)
Definition finishing (st : state) : list event :=
  replicate (backlog st) (Advance 0) ++ sequential (length (pending st)).

(** [Run] is over: [wg.Wait()] has returned, or a goroutine has panicked. *)
Definition Ended (st : state) : Prop :=
  phase st = Joined \/ exists p, phase st = Crashed p.

(** ** The account of the summaries

    What a goroutine still owes to [appStats]: the summary it holds, or
    the one its body will give. *)
Definition promise (P : Platform) (g : goroutine) : list appStatSummary :=
  match g with
  | Fetching app => summaries P [app]
  | Loading stat => [stat]
  | Storing stat _ => [stat]
  end.

(** The summaries that are still to be stored in a state. *)
Definition outstanding (P : Platform) (st : state) : list appStatSummary :=
  (running st ≫= promise P) ++ summaries P (pending st).

(** The value of [appStats] a goroutine has loaded and not yet stored. *)
Definition loadedBy (g : goroutine) : list appStatSummary :=
  match g with
  | Storing _ loaded => loaded
  | _ => []
  end.

(** What holds of the slice as long as no two goroutines are inside the
    append at the same time: with the outstanding summaries the slice
    makes up the summaries of the listing, a goroutine inside the append
    holds the slice as it is, and no append has written outside its
    array. *)
Record Ledger (P : Platform) (apps : list (option AppSearchResoures))
    (st : state) : Prop := {
  ledger_total : appStats st ++ outstanding P st ≡ₚ summaries P apps;
  ledger_loaded :
    Forall (fun g => storing g = true -> loadedBy g = appStats st) (running st);
  ledger_phase : phase st ≠ Corrupted
}.

(** No goroutine but the first of [running] is inside the append. *)
Definition Quiet (st : state) : Prop :=
  Forall (fun g => storing g = false) (tail (running st)).

(** The step that lets the goroutine inside the append, if there is one,
    store the slice. *)
Definition settle (st : state) : list event :=
  match list_find (fun g => storing g = true) (running st) with
  | Some (i, _) => [Advance i]
  | None => []
  end.

(** A schedule that brings a state to the end of [Run] without the data
    race: the goroutine inside the append stores first, [finishing] does
    the rest. *)
Definition completion (P : Platform) (st : state) : list event :=
  settle st ++ finishing (exec P (settle st) st).

(** ** The rest of the file: printing (lines 35-37 and 145-152) *)

(** [fmt.Sprintf("%d", n)] for an [int]: the decimal numeral, with a
    minus sign for a negative number. *)
Definition Sprintf_d (n : Z) : string := pretty n.

(** [toValueList], line 36; [Sprintf_f] is [fmt.Sprintf("%f", x)], left
    to the formatter passed in. *)
Definition toValueList (Sprintf_f : spec_float -> string) (s : appStatSummary)
  : list string :=
  [Name s; Space s; Sprintf_d (MemoryAlloc s); Sprintf_d (AvgMemoryUse s);
   Sprintf_f (Ratio s)].

(** The header of line 146 and the rows of lines 148-150, in the order
    they are appended to the table. *)
Definition header : list string :=
  ["Name"; "Space"; "Alloc"; "AvgUse"; "Ratio"]%string.

Definition tableRows (Sprintf_f : spec_float -> string)
    (appStats : list appStatSummary) : list (list string) :=
  toValueList Sprintf_f <$> appStats.

(** ** Further notions *)

#[global] Instance spec_float_eq_dec : EqDecision spec_float.
Proof. solve_decision. Defined.

#[global] Instance appStatSummary_eq_dec : EqDecision appStatSummary.
Proof. solve_decision. Defined.

#[global] Instance event_eq_dec : EqDecision event.
Proof. solve_decision. Defined.

(** Every element of the listing has its pointers set. *)
Definition WellFormed (apps : list (option AppSearchResoures)) : Prop :=
  Forall (fun app => exists cfApp md en,
            app = Some cfApp /\ Metadata cfApp = Some md /\
            Entity cfApp = Some en) apps.

(** Two platforms give [Run] the same to read: the joined output of every
    command, the decoded stats with their error, and the decoded listing.
    The errors of the commands and of the listing decoder may differ, and
    so may the way the output is cut into lines. *)
Definition SameAnswers (P Q : Platform) : Prop :=
  (forall cmd, join (CliCommandWithoutTerminalOutput P cmd).1
               = join (CliCommandWithoutTerminalOutput Q cmd).1) /\
  (forall body, unmarshalStats P body = unmarshalStats Q body) /\
  (forall body, (unmarshalApps P body).1 = (unmarshalApps Q body).1).

(** A platform on which everything fails: no output, no listing. *)
Definition unreachable : Platform := scripted [] [] [].

(** [demo guids] with an empty line before every output, a transport
    error on every command and a parse error for the listing. *)
Definition noisy (guids : list string) : Platform :=
  {| CliCommandWithoutTerminalOutput := fun cmd =>
       (EmptyString :: (CliCommandWithoutTerminalOutput (demo guids) cmd).1,
        Some transportError);
     unmarshalStats := unmarshalStats (demo guids);
     unmarshalApps := fun body =>
       ((unmarshalApps (demo guids) body).1, Some syntaxError) |}.

(** * Properties *)

(** ** Integers *)

Lemma wrap_inRange (z : Z) : Int.inRange (Int.wrap z).
Proof.
  unfold Int.inRange, Int.wrap, Int.min, Int.max.
  pose proof (Z.mod_pos_bound (z + 2 ^ 63) (2 ^ 64)). lia.
Qed.

Lemma wrap_id (z : Z) : Int.inRange z -> Int.wrap z = z.
Proof.
  unfold Int.inRange, Int.wrap, Int.min, Int.max. intros Hz.
  rewrite Z.mod_small; lia.
Qed.

Lemma wrap_add_l (a b : Z) : Int.wrap (Int.wrap a + b) = Int.wrap (a + b).
Proof.
  unfold Int.wrap. f_equal.
  replace ((a + 2 ^ 63) mod 2 ^ 64 - 2 ^ 63 + b + 2 ^ 63)
    with ((a + 2 ^ 63) mod 2 ^ 64 + b) by lia.
  rewrite Zplus_mod_idemp_l. f_equal. lia.
Qed.

(** A quotient by a positive count stays in range, so [intDiv] does not
    wrap there. *)
Lemma quot_inRange (z n : Z) : Int.inRange z -> 0 < n -> Int.inRange (Z.quot z n).
Proof.
  unfold Int.inRange, Int.min, Int.max. intros Hz Hn.
  destruct (Z.le_gt_cases 0 z) as [H0|H0].
  - pose proof (Z.quot_pos z n H0 Hn).
    pose proof (Z.quot_le_upper_bound z n z Hn). nia.
  - pose proof (Z.quot_opp_l z n ltac:(lia)) as Hopp.
    assert (0 <= - z) as Hnz by lia.
    pose proof (Z.quot_pos (- z) n Hnz Hn).
    pose proof (Z.quot_le_upper_bound (- z) n (- z) Hn). nia.
Qed.

(** ** The sum of the usage *)

Lemma sumUsage_from (visited : list AppStat) (acc : Z) :
  fold_left (fun total stat => Int.add total (Mem (Usage (Stats stat)))) visited
            (Int.wrap acc)
  = Int.wrap (acc + exactUsage visited).
Proof.
  revert acc. induction visited as [|stat visited IH]; intros acc; simpl.
  - f_equal. lia.
  - unfold Int.add at 2. rewrite wrap_add_l, IH. f_equal. lia.
Qed.

Lemma sumUsage_exact (visited : list AppStat) :
  sumUsage visited = Int.wrap (exactUsage visited).
Proof.
  unfold sumUsage. change 0 with (Int.wrap 0) at 1.
  rewrite sumUsage_from. reflexivity.
Qed.

Lemma exactUsage_Permutation (l1 l2 : list AppStat) :
  l1 ≡ₚ l2 -> exactUsage l1 = exactUsage l2.
Proof.
  induction 1; simpl; lia.
Qed.

(** The order in which [range] visits the map does not change the total. *)
Lemma sumUsage_Permutation (l1 l2 : list AppStat) :
  l1 ≡ₚ l2 -> sumUsage l1 = sumUsage l2.
Proof.
  intros H. rewrite !sumUsage_exact, (exactUsage_Permutation _ _ H). reflexivity.
Qed.

Lemma totalUsage_inRange (stats : gmap string AppStat) :
  Int.inRange (totalUsage stats).
Proof.
  unfold totalUsage. rewrite sumUsage_exact. apply wrap_inRange.
Qed.

(** ** The goroutine body *)

Lemma index_running_lookup (stats : gmap string AppStat) :
  State (index stats "0") = "RUNNING"%string -> is_Some (stats !! "0"%string).
Proof.
  unfold index. destruct (stats !! "0"%string) as [st|]; simpl; [eauto|discriminate].
Qed.

Lemma len_pos_of_running (stats : gmap string AppStat) :
  State (index stats "0") = "RUNNING"%string -> 0 < len stats.
Proof.
  intros H. apply index_running_lookup in H as [st Hst].
  unfold len. assert (size stats ≠ 0%nat); [|lia].
  intros Hsz. apply map_size_empty_iff in Hsz. subst. rewrite lookup_empty in Hst.
  discriminate.
Qed.

Lemma intDiv_len (stats : gmap string AppStat) :
  0 < len stats ->
  intDiv (totalUsage stats) (len stats)
  = Ok (Z.quot (totalUsage stats) (len stats)).
Proof.
  intros Hlen. unfold intDiv.
  destruct (Z.eqb_spec (len stats) 0) as [H0|_]; [lia|].
  rewrite wrap_id; [reflexivity|].
  apply quot_inRange; [apply totalUsage_inRange|assumption].
Qed.

Lemma summarise_not_running cfApp md (stats : gmap string AppStat) :
  State (index stats "0") ≠ "RUNNING"%string -> summarise cfApp md stats = Ok None.
Proof.
  intros H. unfold summarise. rewrite bool_decide_eq_true_2; auto.
Qed.

Lemma summarise_running cfApp md (stats : gmap string AppStat) :
  State (index stats "0") = "RUNNING"%string ->
  summarise cfApp md stats
  = match Entity cfApp with
    | Some en => Ok (Some (summaryOf en md stats))
    | None => Panic NilPointerDereference
    end.
Proof.
  intros H. unfold summarise. rewrite bool_decide_eq_false_2 by auto.
  destruct (Entity cfApp) as [en|]; simpl; [|reflexivity].
  rewrite intDiv_len by (apply len_pos_of_running; assumption).
  reflexivity.
Qed.

(** The body never divides by zero: a map in which instance 0 is running
    is not empty. *)
Lemma summarise_no_division_by_zero cfApp md (stats : gmap string AppStat) :
  summarise cfApp md stats ≠ Panic IntegerDivideByZero.
Proof.
  destruct (decide (State (index stats "0") = "RUNNING"%string)) as [H|H].
  - rewrite summarise_running by assumption. destruct (Entity cfApp); discriminate.
  - rewrite summarise_not_running by assumption. discriminate.
Qed.

Lemma worker_fetch (P : Platform) cfApp md :
  Metadata cfApp = Some md ->
  worker P (Some cfApp)
  = match (GetAppStats P (Guid md)).2 with
    | Some _ => Ok None
    | None => summarise cfApp md (GetAppStats P (Guid md)).1
    end.
Proof.
  intros Hmd. unfold worker. simpl. rewrite Hmd. simpl.
  destruct (GetAppStats P (Guid md)) as [stats [e|]]; reflexivity.
Qed.

Lemma worker_Produced (P : Platform) app s :
  worker P app = Ok (Some s) <-> Produced P app s.
Proof.
  split.
  - destruct app as [cfApp|]; [|discriminate].
    destruct (Metadata cfApp) as [md|] eqn:Hmd;
      [|unfold worker; simpl; rewrite Hmd; discriminate].
    rewrite (worker_fetch P cfApp md Hmd).
    destruct (GetAppStats P (Guid md)).2 as [e|] eqn:Herr; [discriminate|].
    destruct (decide (State (index (GetAppStats P (Guid md)).1 "0")
                      = "RUNNING"%string)) as [Hrun|Hrun].
    + rewrite summarise_running by assumption.
      destruct (Entity cfApp) as [en|] eqn:Hen; [|discriminate].
      intros [= <-]. by eapply produced.
    + rewrite summarise_not_running by assumption. discriminate.
  - intros [cfApp md en -> Hmd Hen Herr Hrun ->].
    rewrite (worker_fetch P cfApp md Hmd), Herr, summarise_running, Hen; done.
Qed.

Lemma worker_no_division_by_zero (P : Platform) app :
  worker P app ≠ Panic IntegerDivideByZero.
Proof.
  destruct app as [cfApp|]; [|discriminate].
  destruct (Metadata cfApp) as [md|] eqn:Hmd;
    [|unfold worker; simpl; rewrite Hmd; discriminate].
  rewrite (worker_fetch P cfApp md Hmd).
  destruct (GetAppStats P (Guid md)).2; [discriminate|].
  apply summarise_no_division_by_zero.
Qed.

(** ** [float64] of an [int] *)

Lemma digits2_pos_bounds (m : positive) :
  2 ^ (Zpos (digits2_pos m) - 1) <= Zpos m < 2 ^ Zpos (digits2_pos m).
Proof.
  induction m as [m IH|m IH|]; simpl digits2_pos.
  - rewrite Pos2Z.inj_succ.
    replace (Z.succ (Zpos (digits2_pos m)) - 1) with (Zpos (digits2_pos m)) by lia.
    rewrite Z.pow_succ_r by lia.
    replace (Zpos (digits2_pos m)) with (Z.succ (Zpos (digits2_pos m) - 1)) at 1 by lia.
    rewrite Z.pow_succ_r by lia. lia.
  - rewrite Pos2Z.inj_succ.
    replace (Z.succ (Zpos (digits2_pos m)) - 1) with (Zpos (digits2_pos m)) by lia.
    rewrite Z.pow_succ_r by lia.
    replace (Zpos (digits2_pos m)) with (Z.succ (Zpos (digits2_pos m) - 1)) at 1 by lia.
    rewrite Z.pow_succ_r by lia. lia.
  - simpl. lia.
Qed.

Lemma shr_1_m (mrs : shr_record) :
  0 <= shr_m mrs -> shr_m (shr_1 mrs) = shr_m mrs / 2.
Proof.
  destruct mrs as [m r s]. simpl. intros Hm.
  destruct m as [|p|p]; try lia; [reflexivity|].
  destruct p as [p|p|]; simpl shr_m.
  - rewrite Pos2Z.inj_xI. apply Z.div_unique with 1; lia.
  - rewrite Pos2Z.inj_xO. apply Z.div_unique with 0; lia.
  - reflexivity.
Qed.

Lemma iter_pos_nat {A} (f : A -> A) (p : positive) (x : A) :
  SpecFloat.iter_pos f p x = Nat.iter (Pos.to_nat p) f x.
Proof.
  revert x. induction p as [p IH|p IH|]; intros x; simpl SpecFloat.iter_pos.
  - rewrite !IH. rewrite <- Nat.iter_succ_r, <- Nat.iter_add.
    f_equal. rewrite Pos2Nat.inj_xI. lia.
  - rewrite !IH. rewrite <- Nat.iter_add. f_equal. rewrite Pos2Nat.inj_xO. lia.
  - reflexivity.
Qed.

Lemma iter_shr_1_nat (n : nat) (mrs : shr_record) :
  0 <= shr_m mrs ->
  shr_m (Nat.iter n shr_1 mrs) = shr_m mrs / 2 ^ Z.of_nat n.
Proof.
  intros Hm. induction n as [|n IH].
  - simpl. now rewrite Z.div_1_r.
  - rewrite Nat2Z.inj_succ, Z.pow_succ_r by lia. simpl Nat.iter.
    rewrite shr_1_m, IH.
    + rewrite Z.div_div by lia. f_equal. lia.
    + rewrite IH. apply Z.div_pos; lia.
Qed.

Lemma iter_shr_1_m (p : positive) (mrs : shr_record) :
  0 <= shr_m mrs ->
  shr_m (SpecFloat.iter_pos shr_1 p mrs) = shr_m mrs / 2 ^ Zpos p.
Proof.
  intros Hm. rewrite iter_pos_nat, iter_shr_1_nat by assumption.
  now rewrite positive_nat_Z.
Qed.

Lemma iter_xO (m : positive) (k : positive) :
  Zpos (Pos.iter xO m k) = Zpos m * 2 ^ Zpos k.
Proof.
  induction k as [|k IH] using Pos.peano_ind.
  - simpl. lia.
  - rewrite Pos.iter_succ, Pos2Z.inj_xO, IH, Pos2Z.inj_succ, Z.pow_succ_r by lia.
    lia.
Qed.

Lemma fexp_int (e : Z) : -1021 <= e -> fexp F64.prec F64.emax e = e - 53.
Proof. unfold fexp, emin, F64.prec, F64.emax. lia. Qed.

Lemma round_bounds (m : Z) (l : location) :
  m <= round_nearest_even m l <= m + 1.
Proof.
  destruct l as [|[]]; simpl; try lia. destruct (Z.even m); lia.
Qed.

Lemma digits2_pos_le (m : positive) (b : Z) :
  0 <= b -> Zpos m <= 2 ^ b -> Zpos (digits2_pos m) <= b + 1.
Proof.
  intros Hb Hm. pose proof (digits2_pos_bounds m) as [Dlo _].
  destruct (Z.le_gt_cases (Zpos (digits2_pos m)) (b + 1)) as [H|H]; [assumption|].
  assert (2 ^ (b + 1) <= 2 ^ (Zpos (digits2_pos m) - 1))
    by (apply Z.pow_le_mono_r; lia).
  rewrite Z.pow_add_r, Z.pow_1_r in * by lia.
  assert (0 < 2 ^ b) by (apply Z.pow_pos_nonneg; lia). lia.
Qed.

(** Bringing a positive mantissa to the precision leaves it positive and
    raises the exponent by the digits in excess. *)
Lemma shr_fexp_pos (m : positive) (e : Z) (l : location) :
  -1021 <= Zpos (digits2_pos m) + e ->
  exists mrs,
    shr_fexp F64.prec F64.emax (Zpos m) e l
    = (mrs, e + Z.max 0 (Zpos (digits2_pos m) - 53)) /\
    0 < shr_m mrs <= Zpos m.
Proof.
  intros He. pose proof (digits2_pos_bounds m) as [Dlo Dhi].
  unfold shr_fexp. simpl Zdigits2. rewrite fexp_int by assumption.
  unfold shr.
  destruct (Z.pos (digits2_pos m) + e - 53 - e) as [|p|p] eqn:H.
  - eexists. split; [f_equal; lia|]. destruct l as [|[]]; simpl; lia.
  - exists (SpecFloat.iter_pos shr_1 p (shr_record_of_loc (Z.pos m) l)).
    split; [f_equal; lia|].
    assert (shr_m (shr_record_of_loc (Z.pos m) l) = Zpos m) as Hm
      by (destruct l as [|[]]; reflexivity).
    rewrite iter_shr_1_m by (rewrite Hm; lia). rewrite Hm.
    assert (0 < 2 ^ Zpos p) by (apply Z.pow_pos_nonneg; lia).
    split.
    + apply Z.div_str_pos. split; [assumption|].
      etransitivity; [|exact Dlo]. apply Z.pow_le_mono_r; lia.
    + apply Z.div_le_upper_bound; [assumption|]. nia.
  - eexists. split; [f_equal; lia|]. destruct l as [|[]]; simpl; lia.
Qed.

Lemma binary_round_aux_finite (s : bool) (mz : positive) (ez : Z) (l : location) :
  -1000 <= ez <= 0 -> Zpos mz <= 2 ^ 64 ->
  exists m' e', binary_round_aux F64.prec F64.emax s (Zpos mz) ez l = S754_finite s m' e'.
Proof.
  intros Hez Hmz. unfold binary_round_aux.
  pose proof (digits2_pos_le mz 64 ltac:(lia) Hmz) as Hd.
  assert (0 < Zpos (digits2_pos mz)) as Hd0 by lia.
  destruct (shr_fexp_pos mz ez l) as (mrs1 & -> & Hm1); [lia|].
  pose proof (round_bounds (shr_m mrs1) (loc_of_shr_record mrs1)) as Hround.
  destruct (round_nearest_even (shr_m mrs1) (loc_of_shr_record mrs1))
    as [|m2|m2] eqn:Hm2; try lia.
  assert (Zpos m2 <= 2 ^ 65) as Hm2le.
  { change (2 ^ 65) with (2 * 2 ^ 64). lia. }
  pose proof (digits2_pos_le m2 65 ltac:(lia) Hm2le) as Hd2.
  destruct (shr_fexp_pos m2 (ez + Z.max 0 (Z.pos (digits2_pos mz) - 53)) loc_Exact)
    as (mrs2 & -> & Hm3); [lia|].
  destruct (shr_m mrs2) as [|m3|m3] eqn:H3; try lia.
  destruct (Z.leb_spec
              (ez + Z.max 0 (Z.pos (digits2_pos mz) - 53)
               + Z.max 0 (Z.pos (digits2_pos m2) - 53)) (F64.emax - F64.prec)) as [_|Hbig].
  - eauto.
  - unfold F64.emax, F64.prec in Hbig. lia.
Qed.

(** [float64(n)] is a finite non-zero float for a non-zero [n] that fits 64 bits. *)
Lemma binary_round_int (s : bool) (m : positive) :
  Zpos m <= 2 ^ 63 ->
  exists m' e', binary_round F64.prec F64.emax s m 0 = S754_finite s m' e'.
Proof.
  intros Hm. unfold binary_round.
  pose proof (digits2_pos_bounds m) as [Dlo Dhi].
  pose proof (digits2_pos_le m 63 ltac:(lia) Hm) as Hd64.
  rewrite fexp_int by lia.
  unfold shl_align.
  destruct (Z.pos (digits2_pos m) + 0 - 53 - 0) as [|k|k] eqn:Hk.
  - apply binary_round_aux_finite; lia.
  - apply binary_round_aux_finite; lia.
  - apply binary_round_aux_finite; [lia|].
    rewrite iter_xO.
    assert (Zpos m * 2 ^ Zpos k < 2 ^ Zpos (digits2_pos m) * 2 ^ Zpos k).
    { apply Z.mul_lt_mono_pos_r; [apply Z.pow_pos_nonneg; lia|assumption]. }
    rewrite <- Z.pow_add_r in H by lia.
    replace (Z.pos (digits2_pos m) + Z.pos k) with 53 in H by lia.
    assert (2 ^ 53 <= 2 ^ 64) by (apply Z.pow_le_mono_r; lia). lia.
Qed.

Lemma ofInt_zero : F64.ofInt 0 = S754_zero false.
Proof. reflexivity. Qed.

Lemma ofInt_finite (n : Z) :
  n <> 0 -> - 2 ^ 63 <= n <= 2 ^ 63 - 1 ->
  exists m e, F64.ofInt n = S754_finite (n <? 0) m e.
Proof.
  intros Hn Hr. unfold F64.ofInt, binary_normalize.
  destruct n as [|p|p]; [congruence| |].
  - apply binary_round_int. lia.
  - apply binary_round_int. lia.
Qed.

Lemma shr_nonneg mrs e n : 0 <= shr_m mrs -> 0 <= shr_m (fst (shr mrs e n)).
Proof.
  intros H. unfold shr. destruct n; simpl; try assumption.
  rewrite iter_shr_1_m by assumption. apply Z.div_pos; [assumption|].
  apply Z.pow_pos_nonneg; lia.
Qed.

Lemma binary_round_aux_not_nan (s : bool) (m e : Z) (l : location) :
  0 <= m -> binary_round_aux F64.prec F64.emax s m e l <> S754_nan.
Proof.
  intros Hm. unfold binary_round_aux, shr_fexp.
  destruct (shr (shr_record_of_loc m l) e _) as [mrs1 e1] eqn:H1.
  assert (0 <= shr_m mrs1) as Hm1.
  { change mrs1 with (fst (mrs1, e1)). rewrite <- H1. apply shr_nonneg.
    destruct l as [|[]]; assumption. }
  pose proof (round_bounds (shr_m mrs1) (loc_of_shr_record mrs1)) as Hr.
  destruct (shr (shr_record_of_loc (round_nearest_even _ _) loc_Exact) e1 _)
    as [mrs2 e2] eqn:H2.
  assert (0 <= shr_m mrs2) as Hm2.
  { change mrs2 with (fst (mrs2, e2)). rewrite <- H2. apply shr_nonneg.
    simpl. lia. }
  destruct (shr_m mrs2); try lia; try discriminate.
  destruct (e2 <=? F64.emax - F64.prec); discriminate.
Qed.

Lemma SFdiv_finite_not_nan sx mx ex sy my ey :
  SFdiv F64.prec F64.emax (S754_finite sx mx ex) (S754_finite sy my ey) <> S754_nan.
Proof.
  unfold SFdiv, SFdiv_core_binary.
  set (m' := match _ with Z0 => Zpos mx | Zpos _ => _ | Zneg _ => 0 end).
  assert (0 <= m') as Hm'.
  { unfold m'. destruct (_ - _ - _); try lia. apply Z.shiftl_nonneg. lia. }
  pose proof (Z_div_mod m' (Zpos my) ltac:(lia)) as Hdiv.
  destruct (Z.div_eucl m' (Zpos my)) as [q r].
  apply binary_round_aux_not_nan. destruct Hdiv as [Heq Hr]. nia.
Qed.

(** The ratio of two [int]s is NaN only as 0/0, and a non-zero [int] over
    zero is an infinity. *)
Lemma ratio_NaN (alloc avg : Z) :
  Int.inRange alloc -> Int.inRange avg ->
  F64.isNaN (F64.div (F64.ofInt alloc) (F64.ofInt avg)) = true
  <-> alloc = 0 /\ avg = 0.
Proof.
  unfold Int.inRange, Int.min, Int.max. intros Halloc Havg.
  destruct (Z.eq_dec alloc 0) as [->|Ha]; destruct (Z.eq_dec avg 0) as [->|Hb].
  - split; [auto|reflexivity].
  - destruct (ofInt_finite avg Hb Havg) as (m & e & ->). simpl.
    split; [discriminate|lia].
  - destruct (ofInt_finite alloc Ha Halloc) as (m & e & ->). simpl.
    split; [discriminate|lia].
  - destruct (ofInt_finite alloc Ha Halloc) as (m & e & ->).
    destruct (ofInt_finite avg Hb Havg) as (m' & e' & ->).
    pose proof (SFdiv_finite_not_nan (alloc <? 0) m e (avg <? 0) m' e') as Hnan.
    unfold F64.div. destruct (SFdiv _ _ _ _); simpl; split; try discriminate;
      try lia. congruence.
Qed.

Lemma ratio_infinite (alloc : Z) :
  alloc <> 0 -> Int.inRange alloc ->
  F64.div (F64.ofInt alloc) (F64.ofInt 0) = S754_infinity (alloc <? 0).
Proof.
  unfold Int.inRange, Int.min, Int.max. intros Ha Halloc.
  destruct (ofInt_finite alloc Ha Halloc) as (m & e & ->). simpl.
  by destruct (alloc <? 0).
Qed.

(** ** The order of [float64] away from NaN *)

Ltac float_cases :=
  repeat match goal with
         | s : bool |- _ => destruct s
         | |- context [Z.compare ?a ?b] => destruct (Z.compare_spec a b)
         | |- context [Pos.compare_cont Eq ?a ?b] =>
             change (Pos.compare_cont Eq a b) with (Pos.compare a b);
             destruct (Pos.compare_spec a b)
         end;
  simpl; split; intros; try discriminate; try reflexivity; try lia.

Lemma ltb_key (x y : spec_float) :
  F64.isNaN x = false -> F64.isNaN y = false ->
  F64.ltb x y = true <-> keyLt (key x) (key y).
Proof.
  intros Hx Hy. unfold F64.ltb, SFltb, keyLt.
  destruct x as [sx|sx| |sx mx ex]; try discriminate;
    destruct y as [sy|sy| |sy my ey]; try discriminate; simpl;
    float_cases.
Qed.

Lemma geb_key (x y : spec_float) :
  F64.isNaN x = false -> F64.isNaN y = false ->
  F64.geb x y = true <-> ~ keyLt (key x) (key y).
Proof.
  intros Hx Hy. unfold F64.geb, SFleb, keyLt.
  destruct x as [sx|sx| |sx mx ex]; try discriminate;
    destruct y as [sy|sy| |sy my ey]; try discriminate; simpl;
    float_cases.
Qed.

Lemma ltb_false_key (x y : spec_float) :
  F64.isNaN x = false -> F64.isNaN y = false ->
  F64.ltb x y = false <-> ~ keyLt (key x) (key y).
Proof.
  intros Hx Hy. rewrite <- (ltb_key x y Hx Hy).
  destruct (F64.ltb x y); intuition congruence.
Qed.

(** Without NaN among the ratios, [Less] is the ordering [sort.Sort]
    asks for. *)
Lemma Less_Ordering (rows : list appStatSummary) :
  (forall s, s ∈ rows -> F64.isNaN (Ratio s) = false) ->
  Ordering Less rows.
Proof.
  intros Hnan. unfold Less. split.
  - intros x Hx. apply ltb_false_key; auto. unfold keyLt. lia.
  - intros x y z Hx Hy Hz. rewrite !ltb_key by auto. unfold keyLt. lia.
  - intros x y z Hx Hy Hz. rewrite !ltb_false_key by auto. unfold keyLt. lia.
Qed.

(** ** The methods of [byRatio] *)

Lemma LessAt_Less (a : list appStatSummary) (i j : nat) (x y : appStatSummary) :
  a !! i = Some x -> a !! j = Some y -> LessAt a i j = Ok (Less x y).
Proof. intros Hi Hj. unfold LessAt, at_. by rewrite Hi, Hj. Qed.

Lemma insert_swap_Permutation (a : list appStatSummary) (i j : nat)
    (x y : appStatSummary) :
  a !! i = Some x -> a !! j = Some y -> <[j := x]> (<[i := y]> a) ≡ₚ a.
Proof.
  intros Hi Hj. destruct (decide (i = j)) as [->|Hne].
  - rewrite list_insert_insert_eq. assert (x = y) as -> by congruence.
    by rewrite list_insert_id.
  - pose proof (lookup_lt_Some _ _ _ Hi) as Hli.
    pose proof (lookup_lt_Some _ _ _ Hj) as Hlj.
    apply Permutation_inj. split; [by rewrite !length_insert|].
    exists (fun k => if decide (k = i) then j else if decide (k = j) then i else k).
    split.
    + intros k1 k2. repeat case_decide; congruence.
    + intros k. rewrite !list_lookup_insert, !length_insert.
      repeat case_decide; destruct_and?; simplify_eq; try done; try lia;
        try congruence; exfalso; intuition lia.
Qed.

(** [Swap] only permutes the slice, which is why [sort.Sort] returns a
    permutation whatever [Less] is. *)
Lemma Swap_Permutation (a a' : list appStatSummary) (i j : nat) :
  Swap a i j = Ok a' -> a' ≡ₚ a /\ Len a' = Len a.
Proof.
  unfold Swap, at_, Len.
  destruct (a !! i) as [x|] eqn:Hi; [|discriminate].
  destruct (a !! j) as [y|] eqn:Hj; [|discriminate]. simpl.
  intros [= <-]. split; [by apply insert_swap_Permutation|].
  by rewrite !length_insert.
Qed.

(** ** Insertion sort meets the contract of [sort.Sort] *)

Section InsertionSort.
Context {A : Type} (less : A -> A -> bool).

Lemma moveLeft_Permutation (x : A) (prefix : list A) :
  moveLeft less x prefix ≡ₚ x :: prefix.
Proof.
  induction prefix as [|y rest IH]; simpl; [done|].
  destruct (less x y); [|done].
  rewrite IH. apply Permutation_swap.
Qed.

Lemma insertion_Permutation (l prefix : list A) :
  fold_left (fun p x => moveLeft less x p) l prefix ≡ₚ prefix ++ l.
Proof.
  revert prefix. induction l as [|x l IH]; intros prefix; simpl.
  - by rewrite app_nil_r.
  - rewrite IH, moveLeft_Permutation. simpl. apply Permutation_middle.
Qed.

Lemma insertionSort_Permutation (l : list A) : insertionSort A less l ≡ₚ l.
Proof.
  unfold insertionSort. by rewrite <- Permutation_rev, insertion_Permutation.
Qed.

Variable universe : list A.
Hypothesis ordering : Ordering less universe.

Lemma less_asym (x y : A) :
  x ∈ universe -> y ∈ universe -> less x y = true -> less y x = false.
Proof.
  intros Hx Hy Hxy. destruct (less y x) eqn:Hyx; [|done].
  rewrite <- (less_irrefl less universe ordering x Hx).
  symmetry. by apply (less_trans less universe ordering x y x).
Qed.

Lemma moveLeft_sorted (x : A) (prefix : list A) :
  x ∈ universe -> prefix ⊆ universe ->
  PrefixSorted less prefix -> PrefixSorted less (moveLeft less x prefix).
Proof.
  intros Hx. unfold PrefixSorted.
  induction prefix as [|y rest IH]; intros Hsub Hsorted; simpl.
  - repeat constructor.
  - apply StronglySorted_cons in Hsorted as [Hy Hrest].
    assert (y ∈ universe) as Hyu by (apply Hsub; left).
    assert (rest ⊆ universe) as Hru by (intros z Hz; apply Hsub; by right).
    destruct (less x y) eqn:Hxy.
    + apply StronglySorted_cons. split; [|by apply IH].
      rewrite moveLeft_Permutation. constructor; [|done].
      by apply less_asym.
    + apply StronglySorted_cons. split.
      * constructor; [done|].
        rewrite Forall_forall in Hy |- *. intros z Hz.
        apply (less_negtrans less universe ordering x y z); auto.
      * by apply StronglySorted_cons.
Qed.

Lemma insertion_sorted (l prefix : list A) :
  l ⊆ universe -> prefix ⊆ universe -> PrefixSorted less prefix ->
  PrefixSorted less (fold_left (fun p x => moveLeft less x p) l prefix).
Proof.
  revert prefix. induction l as [|x l IH]; intros prefix Hl Hp Hsorted; simpl.
  - done.
  - assert (x ∈ universe) as Hx by (apply Hl; left).
    apply IH.
    + intros z Hz. apply Hl. by right.
    + intros z Hz. rewrite moveLeft_Permutation in Hz.
      apply elem_of_cons in Hz as [->|Hz]; auto.
    + by apply moveLeft_sorted.
Qed.

Lemma PrefixSorted_rev (prefix : list A) :
  PrefixSorted less prefix -> Ascending less (rev prefix).
Proof.
  unfold PrefixSorted, Ascending. induction 1 as [|y rest Hrest IH Hy]; simpl.
  - constructor.
  - apply StronglySorted_app. split_and!; [|done|repeat constructor].
    intros u v Hu Hv. apply list_elem_of_singleton in Hv as ->.
    rewrite Forall_forall in Hy. apply Hy.
    apply list_elem_of_In, in_rev, list_elem_of_In in Hu. done.
Qed.
End InsertionSort.

Lemma insertionSort_Ascending (A : Type) (less : A -> A -> bool) (l : list A) :
  Ordering less l -> Ascending less (insertionSort A less l).
Proof.
  intros Hord. unfold insertionSort. apply PrefixSorted_rev.
  apply (insertion_sorted less l Hord); [done|set_solver|constructor].
Qed.

(** ** From the order [sort.Sort] leaves to the order of the table *)

Lemma Ascending_Descending (rows : list appStatSummary) :
  (forall s, s ∈ rows -> F64.isNaN (Ratio s) = false) ->
  Ascending Less rows -> Descending rows.
Proof.
  unfold Ascending. intros Hnan Hsorted.
  induction Hsorted as [|a rest Hrest IH Ha]; [done|].
  destruct rest as [|b rest]; [done|]. split.
  - apply Forall_cons in Ha as [Hab _]. unfold Less in Hab.
    assert (F64.isNaN (Ratio a) = false) by (apply Hnan; left).
    assert (F64.isNaN (Ratio b) = false) by (apply Hnan; right; left).
    apply geb_key; auto. by apply ltb_false_key.
  - apply IH. intros s Hs. apply Hnan. by right.
Qed.

Lemma descendingb_spec (rows : list appStatSummary) :
  descendingb rows = true <-> Descending rows.
Proof.
  induction rows as [|a [|b rest] IH]; simpl in *; [done..|].
  rewrite andb_true_iff, IH. done.
Qed.

(** ** The invariant of the fan-out *)

Section Fanout.
Context (P : Platform) (apps : list (option AppSearchResoures)).

Lemma start_Invariant : Invariant P apps (start apps).
Proof.
  split; simpl; try done; try (unfold limit; lia); constructor.
Qed.

Lemma retire_Invariant (i : nat) (g : goroutine) (stats : list appStatSummary)
    (st : state) :
  Invariant P apps st -> phase st = Active -> running st !! i = Some g ->
  Invariant P apps (retire i stats st).
Proof.
  intros [Hlim Hcount Hpend Hrun Hjoin Hcrash] Hphase Hi.
  pose proof (length_delete (running st) i (ltac:(eauto))) as Hlen.
  pose proof (lookup_lt_Some _ _ _ Hi) as Hlt.
  split; simpl; try done.
  - lia.
  - lia.
  - by apply Forall_delete.
  - rewrite Hphase. discriminate.
Qed.

Lemma become_Invariant (i : nat) (g : goroutine) (st : state) :
  Invariant P apps st -> phase st = Active -> Sound P apps g ->
  Invariant P apps (become i g st).
Proof.
  intros [Hlim Hcount Hpend Hrun Hjoin Hcrash] Hphase Hg.
  split; simpl; try done.
  - by rewrite length_insert.
  - by rewrite length_insert.
  - by apply Forall_insert.
  - rewrite Hphase. discriminate.
Qed.

Lemma crash_Invariant (app : option AppSearchResoures) (p : panic)
    (st : state) :
  Invariant P apps st -> app ∈ apps -> worker P app = Panic p ->
  Invariant P apps (enter (Crashed p) st).
Proof.
  intros [Hlim Hcount Hpend Hrun Hjoin Hcrash] Happ Hw.
  split; simpl; try done. intros q [= <-]. eauto.
Qed.

Lemma tear_Invariant (rows : list appStatSummary) (st : state) :
  Invariant P apps st -> Invariant P apps (tear rows st).
Proof. intros [Hlim Hcount Hpend Hrun Hjoin Hcrash]. by split. Qed.

Lemma corrupt_Invariant (st : state) :
  Invariant P apps st -> phase st = Active ->
  Invariant P apps (enter Corrupted st).
Proof. intros [Hlim Hcount Hpend Hrun Hjoin Hcrash] Hphase. by split. Qed.

Lemma advance_Invariant (i : nat) (g : goroutine) (st : state) :
  Invariant P apps st -> phase st = Active -> running st !! i = Some g ->
  Invariant P apps (advance P i g st).
Proof.
  intros Hinv Hphase Hi.
  assert (Sound P apps g) as Hg.
  { eapply Forall_lookup_1; [apply (inv_running _ _ _ Hinv)|apply Hi]. }
  destruct g as [app|stat|stat loaded]; simpl in *.
  - destruct (worker P app) as [[s|]|p] eqn:Hw.
    + by apply become_Invariant.
    + by eapply retire_Invariant.
    + by eapply crash_Invariant.
  - by apply become_Invariant.
  - by eapply retire_Invariant.
Qed.

Lemma step_Invariant (ev : event) (st st' : state) :
  Invariant P apps st -> step P ev st = Some st' -> Invariant P apps st'.
Proof.
  intros Hinv. unfold step.
  destruct (phase st) eqn:Hphase; try discriminate.
  destruct ev as [|i| |rows|i stat loaded|].
  - destruct (pending st) as [|app rest] eqn:Hpending; [discriminate|].
    case_bool_decide as Hlt; [|discriminate].
    intros [= <-]. destruct Hinv as [Hlim Hcount Hpend Hrun Hjoin Hcrash].
    rewrite Hpending in *.
    split; simpl; try done.
    + rewrite length_app. simpl. lia.
    + rewrite length_app. simpl in *. lia.
    + intros x Hx. apply Hpend. by right.
    + apply Forall_app. split; [done|]. constructor; [|done].
      simpl. apply Hpend. left.
  - destruct (running st !! i) as [g|] eqn:Hi; [|discriminate].
    intros [= <-]. by apply advance_Invariant.
  - destruct (pending st) eqn:Hpending; [|discriminate].
    destruct (running st) eqn:Hrunning; [|discriminate].
    intros [= <-]. destruct Hinv as [Hlim Hcount Hpend Hrun Hjoin Hcrash].
    split; simpl; rewrite ?Hpending, ?Hrunning in *; done.
  - destruct (overlap st); [|discriminate].
    intros [= <-]. by apply tear_Invariant.
  - destruct (overlap st); [|discriminate].
    destruct (running st !! i) as [[app|s|s l]|]; try discriminate.
    intros [= <-]. by apply become_Invariant.
  - destruct (overlap st); [|discriminate].
    intros [= <-]. by apply corrupt_Invariant.
Qed.

Lemma perform_Invariant (ev : event) (st : state) :
  Invariant P apps st -> Invariant P apps (perform P st ev).
Proof.
  intros Hinv. unfold perform.
  destruct (step P ev st) as [st'|] eqn:Hstep; simpl; [|done].
  by eapply step_Invariant.
Qed.

Lemma exec_Invariant (sched : list event) (st : state) :
  Invariant P apps st -> Invariant P apps (exec P sched st).
Proof.
  revert st. induction sched as [|ev sched IH]; intros st Hinv; simpl; [done|].
  apply IH. by apply perform_Invariant.
Qed.

Lemma reachable_Invariant (sched : list event) :
  Invariant P apps (exec P sched (start apps)).
Proof. apply exec_Invariant, start_Invariant. Qed.
End Fanout.

Lemma inFlight_le_running (st : state) :
  (inFlight st <= length (running st))%nat.
Proof. unfold inFlight. apply List.filter_length_le. Qed.

(** ** Schedules that reach the end *)

Section Progress.
Context (P : Platform).

Lemma exec_app (s1 s2 : list event) (st : state) :
  exec P (s1 ++ s2) st = exec P s2 (exec P s1 st).
Proof. unfold exec. apply fold_left_app. Qed.

Lemma step_inactive (ev : event) (st : state) :
  phase st ≠ Active -> step P ev st = None.
Proof. unfold step. by destruct (phase st). Qed.

Lemma exec_inactive (sched : list event) (st : state) :
  phase st ≠ Active -> exec P sched st = st.
Proof.
  intros H. induction sched as [|ev sched IH]; simpl; [done|].
  unfold perform. by rewrite step_inactive.
Qed.

(** One round of [sequential] from a state with no goroutine running. *)
Lemma round (app : option AppSearchResoures) rest stats n :
  exec P [Dispatch; Advance 0; Advance 0; Advance 0]
       {| pending := app :: rest; running := []; appStats := stats;
          finished := n; phase := Active |}
  = match worker P app with
    | Ok None =>
        {| pending := rest; running := []; appStats := stats;
           finished := S n; phase := Active |}
    | Ok (Some s) =>
        {| pending := rest; running := []; appStats := stats ++ [s];
           finished := S n; phase := Active |}
    | Panic p =>
        {| pending := rest; running := [Fetching app]; appStats := stats;
           finished := n; phase := Crashed p |}
    end.
Proof.
  unfold exec, perform, step, advance. simpl.
  destruct (worker P app) as [[s|]|p]; reflexivity.
Qed.

Lemma rounds (apps : list (option AppSearchResoures)) stats n :
  Calm P apps ->
  exec P (mjoin (replicate (length apps)
                   [Dispatch; Advance 0; Advance 0; Advance 0]))
       {| pending := apps; running := []; appStats := stats;
          finished := n; phase := Active |}
  = {| pending := []; running := []; appStats := stats ++ summaries P apps;
       finished := n + length apps; phase := Active |}.
Proof.
  revert stats n. induction apps as [|app apps IH]; intros stats n Hcalm.
  - simpl. rewrite app_nil_r. do 2 f_equal. lia.
  - apply Forall_cons in Hcalm as [[r Hr] Hcalm].
    change (mjoin (replicate (length (app :: apps)) ?b))
      with (b ++ mjoin (replicate (length apps) b)).
    rewrite exec_app, round. unfold summaries. simpl. rewrite Hr.
    destruct r as [s|]; rewrite IH by done; unfold summaries; simpl;
      rewrite <- ?app_assoc; simpl; do 2 f_equal; lia.
Qed.

(** Run one after the other, the goroutines leave the summaries in the
    order of the listing. *)
Lemma sequential_exec (apps : list (option AppSearchResoures)) :
  Calm P apps ->
  exec P (sequential (length apps)) (start apps)
  = {| pending := []; running := []; appStats := summaries P apps;
       finished := length apps; phase := Joined |}.
Proof.
  intros Hcalm. unfold sequential, start.
  rewrite exec_app, rounds by done. reflexivity.
Qed.
End Progress.

Section Finishing.
Context (P : Platform).

Lemma perform_head (st : state) :
  phase st = Active ->
  perform P st (Advance 0)
  = match running st with
    | [] => st
    | g :: _ => advance P 0 g st
    end.
Proof.
  intros Hphase. unfold perform, step. rewrite Hphase.
  by destruct (running st).
Qed.

Lemma drain (k : nat) (st : state) :
  (backlog st <= k)%nat -> phase st = Active ->
  (exists p, phase (exec P (replicate k (Advance 0)) st) = Crashed p) \/
  (phase (exec P (replicate k (Advance 0)) st) = Active /\
   running (exec P (replicate k (Advance 0)) st) = [] /\
   pending (exec P (replicate k (Advance 0)) st) = pending st /\
   finished (exec P (replicate k (Advance 0)) st)
   = (finished st + length (running st))%nat).
Proof.
  revert st. induction k as [|k IH]; intros st Hk Hphase.
  - right. simpl. unfold backlog in Hk.
    destruct (running st) as [|g gs]; simpl in *.
    + split_and!; auto.
    + destruct g; simpl in Hk; lia.
  - simpl. rewrite perform_head by done.
    unfold backlog in Hk.
    destruct (running st) as [|g gs] eqn:Hrun; simpl in *.
    + assert (backlog st <= k)%nat as Hb
        by (unfold backlog; rewrite Hrun; simpl; lia).
      destruct (IH st Hb Hphase) as [Hc|(H1 & H2 & H3 & H4)]; [by left|].
      right. rewrite Hrun in H4. auto.
    + destruct g as [app|stat|stat loaded]; simpl.
      * destruct (worker P app) as [[s|]|p].
        -- edestruct (IH (become 0 (Loading s) st))
             as [Hc|(H1 & H2 & H3 & H4)]; [| |left; exact Hc|right].
           { unfold backlog. simpl. rewrite Hrun. simpl in *. lia. }
           { done. }
           simpl in *. rewrite Hrun in H4. simpl in H4. auto.
        -- edestruct (IH (retire 0 (appStats st) st))
             as [Hc|(H1 & H2 & H3 & H4)]; [| |left; exact Hc|right].
           { unfold backlog. simpl. rewrite Hrun. simpl in *. lia. }
           { done. }
           simpl in *. rewrite Hrun in H4. simpl in H4.
           split_and!; auto. lia.
        -- left. exists p. by rewrite exec_inactive.
      * edestruct (IH (become 0 (Storing stat (appStats st)) st))
          as [Hc|(H1 & H2 & H3 & H4)]; [| |left; exact Hc|right].
        { unfold backlog. simpl. rewrite Hrun. simpl in *. lia. }
        { done. }
        simpl in *. rewrite Hrun in H4. simpl in H4. auto.
      * edestruct (IH (retire 0 (loaded ++ [stat]) st))
          as [Hc|(H1 & H2 & H3 & H4)]; [| |left; exact Hc|right].
        { unfold backlog. simpl. rewrite Hrun. simpl in *. lia. }
        { done. }
        simpl in *. rewrite Hrun in H4. simpl in H4.
        split_and!; auto. lia.
Qed.

Lemma rounds_end (apps : list (option AppSearchResoures)) stats n :
  Ended (exec P (sequential (length apps))
           {| pending := apps; running := []; appStats := stats;
              finished := n; phase := Active |}).
Proof.
  revert stats n. induction apps as [|app apps IH]; intros stats n.
  - left. reflexivity.
  - unfold sequential.
    change (mjoin (replicate (length (app :: apps)) ?b))
      with (b ++ mjoin (replicate (length apps) b)).
    rewrite <- app_assoc, exec_app, round.
    destruct (worker P app) as [[s|]|p].
    + apply IH.
    + apply IH.
    + right. exists p. by rewrite exec_inactive.
Qed.

(** From every state in which [Run] is under way, the schedule
    [finishing] brings it to its end: [wg.Wait()] returns, or a
    goroutine has panicked. *)
Lemma finishing_Ended (st : state) :
  phase st = Active -> Ended (exec P (finishing st) st).
Proof.
  intros Hphase. unfold finishing. rewrite exec_app.
  destruct (drain (backlog st) st) as [[p Hc]|(H1 & H2 & H3 & H4)]; auto.
  - right. exists p. rewrite exec_inactive; [done|]. by rewrite Hc.
  - rewrite <- H3.
    destruct (exec P (replicate (backlog st) (Advance 0)) st)
      as [pend run stats n ph]; simpl in *. subst.
    apply rounds_end.
Qed.
End Finishing.

(** Insertion sort is a [Sorter]: the contract of [sort.Sort] can be met,
    and this is the sorter the examples run. *)
Definition insertionSorter : Sorter :=
  {| Sort := insertionSort;
     Sort_Permutation := fun A less l => insertionSort_Permutation less l;
     Sort_Ascending := insertionSort_Ascending |}.

(** ** [Run] *)

Lemma GetAllApps_nil (P : Platform) : (GetAllApps P).2 = None.
Proof.
  unfold GetAllApps.
  destruct (CliCommandWithoutTerminalOutput P _) as [output e].
  by destruct (unmarshalApps P _).
Qed.

Lemma Run_unfold (P : Platform) (srt : Sorter) (sched : list event) :
  Run P srt sched
  = match phase (exec P sched (start (Resources (GetAllApps P).1))) with
    | Crashed p => Panicked (Some p)
    | Active => Blocked (exec P sched (start (Resources (GetAllApps P).1)))
    | Joined =>
        Returned (Sort srt appStatSummary Less
                    (appStats (exec P sched (start (Resources (GetAllApps P).1)))))
    | Corrupted => Undefined
    end.
Proof.
  unfold Run. pose proof (GetAllApps_nil P) as Hnil.
  destruct (GetAllApps P) as [res err]. simpl in *. by subst.
Qed.

Lemma Run_Returned (P : Platform) (srt : Sorter) (sched : list event) rows :
  Run P srt sched = Returned rows ->
  phase (exec P sched (start (Resources (GetAllApps P).1))) = Joined /\
  rows = Sort srt appStatSummary Less
           (appStats (exec P sched (start (Resources (GetAllApps P).1)))).
Proof.
  rewrite Run_unfold.
  destruct (phase _); intros H; try discriminate. by injection H as <-.
Qed.

(** A goroutine whose body returns early ends without a trace: the slice,
    the rest of the listing and the other goroutines are as they were. *)
Lemma skip_step (P : Platform) (app : option AppSearchResoures) (st : state)
    (i : nat) :
  worker P app = Ok None ->
  phase st = Active -> running st !! i = Some (Fetching app) ->
  exists st', step P (Advance i) st = Some st' /\
    phase st' = Active /\ appStats st' = appStats st /\
    pending st' = pending st /\ running st' = delete i (running st) /\
    finished st' = S (finished st).
Proof.
  intros Hw Hphase Hi. exists (retire i (appStats st) st).
  unfold step. rewrite Hphase, Hi. simpl. rewrite Hw. by split_and!.
Qed.

Lemma skip_summaries (P : Platform) (app : option AppSearchResoures) l1 l2 :
  worker P app = Ok None ->
  summaries P (l1 ++ app :: l2) = summaries P (l1 ++ l2).
Proof.
  intros Hw. unfold summaries. rewrite !omap_app. simpl. by rewrite Hw.
Qed.

Lemma skip_sequential (P : Platform) (app : option AppSearchResoures) l1 l2 :
  worker P app = Ok None -> Calm P (l1 ++ l2) ->
  exec P (sequential (length (l1 ++ app :: l2))) (start (l1 ++ app :: l2))
  = {| pending := []; running := []; appStats := summaries P (l1 ++ l2);
       finished := S (length (l1 ++ l2)); phase := Joined |}.
Proof.
  intros Hw Hcalm. rewrite sequential_exec.
  - rewrite skip_summaries by done. do 2 f_equal.
    rewrite !length_app. simpl. lia.
  - unfold Calm in *. apply Forall_app in Hcalm as [H1 H2].
    apply Forall_app. split; [done|]. constructor; [by exists None|done].
Qed.

(** ** The account of the summaries in a run without the data race *)

Section Account.
Context (P : Platform) (apps : list (option AppSearchResoures)).

Lemma insert_delete_Permutation {A : Type} (l : list A) (i : nat) (x : A) :
  (i < length l)%nat -> <[i := x]> l ≡ₚ x :: delete i l.
Proof.
  intros Hi. rewrite insert_take_drop, delete_take_drop by done.
  by rewrite Permutation_middle.
Qed.

Lemma promises_lookup (gs : list goroutine) (i : nat) (g : goroutine) :
  gs !! i = Some g ->
  gs ≫= promise P ≡ₚ promise P g ++ (delete i gs ≫= promise P).
Proof.
  intros Hi. rewrite (delete_Permutation gs i g Hi) at 1. by rewrite bind_cons.
Qed.

Lemma promises_insert (gs : list goroutine) (i : nat) (g g' : goroutine) :
  gs !! i = Some g ->
  <[i := g']> gs ≫= promise P ≡ₚ promise P g' ++ (delete i gs ≫= promise P).
Proof.
  intros Hi. rewrite insert_delete_Permutation by by eapply lookup_lt_Some.
  by rewrite bind_cons.
Qed.

Lemma summaries_cons (app : option AppSearchResoures) rest :
  summaries P (app :: rest) = summaries P [app] ++ summaries P rest.
Proof. unfold summaries. simpl. by destruct (worker P app) as [[s|]|p]. Qed.

Lemma summaries_one (app : option AppSearchResoures) :
  summaries P [app]
  = match worker P app with
    | Ok (Some s) => [s]
    | _ => []
    end.
Proof. unfold summaries. simpl. by destruct (worker P app) as [[s|]|p]. Qed.

Lemma summaries_Origin (s : appStatSummary) :
  s ∈ summaries P apps -> Origin P apps s.
Proof.
  unfold summaries. intros (app & Happ & Hw)%list_elem_of_omap.
  exists app. split; [done|]. apply worker_Produced.
  by destruct (worker P app) as [[r|]|p]; simplify_eq.
Qed.

(** The goroutines inside the append, counted. *)
Lemma inAppend_delete (gs : list goroutine) (i : nat) (g : goroutine) :
  gs !! i = Some g -> storing g = true ->
  length (List.filter storing gs)
  = S (length (List.filter storing (delete i gs))).
Proof.
  intros Hi Hg. rewrite <- (take_drop_middle gs i g Hi) at 1.
  rewrite delete_take_drop, !List.filter_app, !length_app. simpl.
  rewrite Hg. simpl. lia.
Qed.

Lemma none_storing (gs : list goroutine) :
  length (List.filter storing gs) = 0%nat ->
  Forall (fun g => storing g = false) gs.
Proof.
  induction gs as [|g gs IH]; simpl; [constructor|].
  destruct (storing g) eqn:Hg; simpl; [discriminate|].
  intros H. constructor; auto.
Qed.

Lemma storing_none (gs : list goroutine) :
  Forall (fun g => storing g = false) gs ->
  length (List.filter storing gs) = 0%nat.
Proof. induction 1 as [|g gs Hg _ IH]; simpl; [done|]. by rewrite Hg. Qed.

(** When the race is not on, the goroutine inside the append is the only
    one there. *)
Lemma alone_in_the_append (st : state) (i : nat) (g : goroutine) :
  overlap st = false -> running st !! i = Some g -> storing g = true ->
  Forall (fun g => storing g = false) (delete i (running st)).
Proof.
  unfold overlap, inAppend. intros Hov Hi Hg.
  apply bool_decide_eq_false in Hov.
  apply none_storing. pose proof (inAppend_delete _ _ _ Hi Hg). lia.
Qed.

Lemma start_Ledger : Ledger P apps (start apps).
Proof. split; simpl; [done|constructor|done]. Qed.

Lemma advance_Ledger (i : nat) (g : goroutine) (st : state) :
  overlap st = false -> phase st = Active -> running st !! i = Some g ->
  Ledger P apps st -> Ledger P apps (advance P i g st).
Proof.
  intros Hov Hphase Hi [Htotal Hloaded Hnc].
  pose proof (Forall_lookup_1 _ _ _ _ Hloaded Hi) as Hg.
  unfold outstanding in Htotal.
  rewrite (promises_lookup _ _ _ Hi) in Htotal.
  destruct g as [app|stat|stat loaded]; unfold advance.
  - change (promise P (Fetching app)) with (summaries P [app]) in Htotal.
    rewrite summaries_one in Htotal.
    destruct (worker P app) as [[s|]|p] eqn:Hw.
    + split; [| |done].
      * unfold outstanding. simpl running. simpl pending. simpl appStats.
        rewrite promises_insert by done. by rewrite <- Htotal.
      * simpl. by apply Forall_insert.
    + split; [|by apply Forall_delete|done].
      unfold outstanding. simpl running. simpl pending. by rewrite <- Htotal.
    + split; [|done|done].
      unfold outstanding. simpl running. simpl pending. simpl appStats.
      rewrite (promises_lookup _ _ _ Hi).
      change (promise P (Fetching app)) with (summaries P [app]).
      by rewrite summaries_one, Hw.
  - split; [| |done].
    + unfold outstanding. simpl running. simpl pending. simpl appStats.
      rewrite promises_insert by done. by rewrite <- Htotal.
    + simpl. by apply Forall_insert.
  - simpl in Hg. rewrite (Hg eq_refl). split; [| |done].
    + unfold outstanding. simpl running. simpl pending. simpl appStats.
      rewrite <- Htotal. simpl. by rewrite <- !app_assoc.
    + simpl. eapply Forall_impl; [by eapply alone_in_the_append|].
      simpl. intros g Hf Ht. congruence.
Qed.

Lemma step_Ledger (ev : event) (st st' : state) :
  overlap st = false -> step P ev st = Some st' ->
  Ledger P apps st -> Ledger P apps st'.
Proof.
  intros Hov. unfold step. rewrite Hov.
  destruct (phase st) eqn:Hphase; try discriminate.
  destruct ev as [|i| |rows|i stat loaded|]; try discriminate.
  - destruct (pending st) as [|app rest] eqn:Hpending; [discriminate|].
    case_bool_decide; [|discriminate]. intros [= <-].
    intros [Htotal Hloaded Hnc].
    unfold outstanding in *. rewrite Hpending in Htotal.
    split; [| |done].
    + unfold outstanding. simpl running. simpl pending. simpl appStats.
      rewrite <- Htotal, bind_app, (summaries_cons app rest).
      change ([Fetching app] ≫= promise P) with (summaries P [app] ++ []).
      by rewrite app_nil_r, <- !app_assoc.
    + simpl. apply Forall_app. split; [done|]. by constructor.
  - destruct (running st !! i) as [g|] eqn:Hi; [|discriminate].
    intros [= <-]. by apply advance_Ledger.
  - destruct (pending st); [|discriminate].
    destruct (running st); [|discriminate]. intros [= <-].
    intros [Htotal Hloaded Hnc]. by split.
Qed.

Lemma orderly_head (ev : event) (sched : list event) (st : state) :
  orderly P (ev :: sched) st = true ->
  overlap st = false /\ orderly P sched (perform P st ev) = true.
Proof.
  simpl. intros [H1 H2]%andb_true_iff. by apply negb_true_iff in H1.
Qed.

Lemma exec_Ledger (sched : list event) (st : state) :
  orderly P sched st = true ->
  Ledger P apps st -> Ledger P apps (exec P sched st).
Proof.
  revert st. induction sched as [|ev sched IH]; intros st Hord Hl; [done|].
  apply orderly_head in Hord as [Hov Hord].
  change (exec P (ev :: sched) st) with (exec P sched (perform P st ev)).
  apply IH; [done|]. unfold perform.
  destruct (step P ev st) as [st'|] eqn:Hstep; simpl; [|done].
  by eapply step_Ledger.
Qed.

(** When [wg.Wait()] returns after a run without the race, the slice
    holds the summaries of the listing, each once. *)
Lemma orderly_appStats (sched : list event) :
  orderly P sched (start apps) = true ->
  phase (exec P sched (start apps)) = Joined ->
  appStats (exec P sched (start apps)) ≡ₚ summaries P apps.
Proof.
  intros Hord Hphase.
  destruct (exec_Ledger sched (start apps) Hord start_Ledger) as [Htotal _ _].
  destruct (inv_joined _ _ _ (reachable_Invariant P apps sched) Hphase)
    as [Hp Hr].
  unfold outstanding in Htotal. rewrite Hp, Hr in Htotal.
  by rewrite app_nil_r in Htotal.
Qed.

Lemma orderly_never_Corrupted (sched : list event) :
  orderly P sched (start apps) = true ->
  phase (exec P sched (start apps)) ≠ Corrupted.
Proof.
  intros Hord.
  apply (ledger_phase _ _ _ (exec_Ledger sched (start apps) Hord start_Ledger)).
Qed.
End Account.

(** The rows of a run without the race are the summaries of the listing. *)
Lemma orderly_rows (P : Platform) (srt : Sorter) (sched : list event) rows :
  orderly P sched (start (Resources (GetAllApps P).1)) = true ->
  Run P srt sched = Returned rows ->
  rows ≡ₚ summaries P (Resources (GetAllApps P).1).
Proof.
  intros Hord [Hphase ->]%Run_Returned.
  rewrite Sort_Permutation. by apply orderly_appStats.
Qed.

(** * The claims *)

(** C1, as stated, fails: an application whose single running instance
    reports no memory in use is listed, with an average of zero and the
    ratio 1024/0, the positive infinity. *)
Lemma C1_zero_average_is_listed :
  Run (demo ["idle"%string]) insertionSorter (sequential 1)
  = Returned [row "idle" 1024 0 positiveInfinity].
Proof. vm_compute. reflexivity. Qed.

(** C1, amended: in a run in which no two goroutines are inside the
    unlocked append of line 133 at the same time, every row of the final
    table has as ratio the [float64] quotient of its allocation by its
    average use, and is the summary of an element of the listing whose
    fetch returned no error and whose instance 0 is running, so that its
    stats map is not empty; the average is the truncated quotient of the
    total by the number of entries, of whatever sign. *)
Theorem C1_rows_are_summaries_of_running_workloads
    (P : Platform) (srt : Sorter) (sched : list event)
    (rows : list appStatSummary) (s : appStatSummary) :
  orderly P sched (start (Resources (GetAllApps P).1)) = true ->
  Run P srt sched = Returned rows -> s ∈ rows ->
  Ratio s = F64.div (F64.ofInt (MemoryAlloc s)) (F64.ofInt (AvgMemoryUse s)) /\
  exists cfApp md stats,
    Some cfApp ∈ Resources (GetAllApps P).1 /\
    Metadata cfApp = Some md /\
    GetAppStats P (Guid md) = (stats, None) /\
    State (index stats "0") = "RUNNING"%string /\
    0 < len stats /\
    MemoryAlloc s = MemQuota (Stats (index stats "0")) /\
    AvgMemoryUse s = Z.quot (totalUsage stats) (len stats).
Proof.
  intros Hord Hrun Hs.
  rewrite (orderly_rows P srt sched rows Hord Hrun) in Hs.
  destruct (summaries_Origin P _ s Hs)
    as (app & Happ & [cfApp md en -> Hmd Hen Herr Hrunning ->]).
  split; [reflexivity|].
  exists cfApp, md, (GetAppStats P (Guid md)).1. split_and!; auto.
  - destruct (GetAppStats P (Guid md)) as [stats err]. simpl in *. by subst.
  - by apply len_pos_of_running.
Qed.

(** The amended C1 at the row of [web], in a run of two goroutines that
    fetch at the same time and append one after the other. *)
Lemma C1_rows_are_summaries_witness :
  Ratio (row "web" 600 200 three)
  = F64.div (F64.ofInt (MemoryAlloc (row "web" 600 200 three)))
            (F64.ofInt (AvgMemoryUse (row "web" 600 200 three))) /\
  exists cfApp md stats,
    Some cfApp
    ∈ Resources (GetAllApps (demo ["pair"%string; "web"%string])).1 /\
    Metadata cfApp = Some md /\
    GetAppStats (demo ["pair"%string; "web"%string]) (Guid md) = (stats, None) /\
    State (index stats "0") = "RUNNING"%string /\
    0 < len stats /\
    MemoryAlloc (row "web" 600 200 three) = MemQuota (Stats (index stats "0")) /\
    AvgMemoryUse (row "web" 600 200 three) = Z.quot (totalUsage stats) (len stats).
Proof.
  apply (C1_rows_are_summaries_of_running_workloads
           (demo ["pair"%string; "web"%string]) insertionSorter interleaved
           [row "pair" 3 1 three; row "web" 600 200 three]).
  - vm_compute. reflexivity.
  - vm_compute. reflexivity.
  - right. left.
Defined.

(** C3, as stated, fails: an application with no quota and no memory in
    use has the ratio 0/0, NaN, which is neither above nor below another
    ratio; the table of the two applications [void] and [web] is not in
    descending order, whichever comes first. *)
Lemma C3_NaN_breaks_the_order :
  Run (demo ["void"%string; "web"%string]) insertionSorter (sequential 2)
  = Returned [row "void" 0 0 S754_nan; row "web" 600 200 three] /\
  descendingb [row "void" 0 0 S754_nan; row "web" 600 200 three] = false /\
  descendingb [row "web" 600 200 three; row "void" 0 0 S754_nan] = false.
Proof. vm_compute. auto. Qed.

(** C3, amended: when no row has NaN as its ratio, the final table is in
    descending order of ratio, whatever sorter meets the contract of
    [sort.Sort] and whatever the schedule was. *)
Theorem C3_table_descending_without_NaN
    (P : Platform) (srt : Sorter) (sched : list event)
    (rows : list appStatSummary) :
  Run P srt sched = Returned rows ->
  (forall s, s ∈ rows -> F64.isNaN (Ratio s) = false) ->
  Descending rows.
Proof.
  intros [_ ->]%Run_Returned Hnan.
  apply Ascending_Descending; [done|].
  apply Sort_Ascending, Less_Ordering.
  intros s Hs. apply Hnan. by rewrite Sort_Permutation.
Qed.

(** The amended C3 at a listing of three applications, one of them with
    an infinite ratio. *)
Lemma C3_table_descending_witness :
  Descending [row "idle" 1024 0 positiveInfinity; row "pair" 3 1 three;
              row "web" 600 200 three].
Proof.
  apply (C3_table_descending_without_NaN
           (demo ["pair"%string; "web"%string; "idle"%string])
           insertionSorter (sequential 3)).
  - vm_compute. reflexivity.
  - intros s Hs. repeat (apply elem_of_cons in Hs as [->|Hs]; [reflexivity|]).
    by apply elem_of_nil in Hs.
Defined.

(** C2: a fetch that succeeds with an empty stats map does not crash the
    goroutine. [stats["0"]] is then the zero value, whose state is not
    "RUNNING", so the body returns before it divides: no summary, no panic,
    and the step that ends the goroutine leaves the slice, the rest of the
    listing and the other goroutines as they were. For no map at all does
    the body divide by zero. *)
Theorem C2_empty_stats_are_skipped
    (P : Platform) (cfApp : AppSearchResoures) (md : AppSearchMetaData) :
  Metadata cfApp = Some md ->
  GetAppStats P (Guid md) = (∅, None) ->
  worker P (Some cfApp) = Ok None /\
  (forall app, worker P app ≠ Panic IntegerDivideByZero) /\
  (forall st i,
     phase st = Active -> running st !! i = Some (Fetching (Some cfApp)) ->
     exists st', step P (Advance i) st = Some st' /\
       phase st' = Active /\ appStats st' = appStats st /\
       pending st' = pending st /\ running st' = delete i (running st) /\
       finished st' = S (finished st)) /\
  (forall l1 l2,
     summaries P (l1 ++ Some cfApp :: l2) = summaries P (l1 ++ l2)).
Proof.
  intros Hmd Hfetch.
  assert (worker P (Some cfApp) = Ok None) as Hw.
  { rewrite (worker_fetch P cfApp md Hmd), Hfetch. simpl.
    apply summarise_not_running. unfold index. rewrite lookup_empty. done. }
  split_and!; [done|apply worker_no_division_by_zero| |].
  - intros st i. by apply skip_step.
  - intros l1 l2. by apply skip_summaries.
Qed.

(** C2 at [none], whose stats are the empty object. *)
Lemma C2_empty_stats_witness :
  worker (demo []) (resource "none" "none" "space" 1) = Ok None /\
  (forall app, worker (demo []) app ≠ Panic IntegerDivideByZero) /\
  (forall st i,
     phase st = Active ->
     running st !! i = Some (Fetching (resource "none" "none" "space" 1)) ->
     exists st', step (demo []) (Advance i) st = Some st' /\
       phase st' = Active /\ appStats st' = appStats st /\
       pending st' = pending st /\ running st' = delete i (running st) /\
       finished st' = S (finished st)) /\
  (forall l1 l2,
     summaries (demo []) (l1 ++ resource "none" "none" "space" 1 :: l2)
     = summaries (demo []) (l1 ++ l2)).
Proof.
  apply (C2_empty_stats_are_skipped (demo []) _
           {| Guid := "none"; Url := EmptyString |}).
  - reflexivity.
  - vm_compute. reflexivity.
Defined.

(** C4: when instance 0 of the fetched stats is not in state "RUNNING",
    the body returns without a summary, whatever the other instances
    report (and whether or not the fetch gave an error). *)
Theorem C4_not_running_gives_no_summary
    (P : Platform) (cfApp : AppSearchResoures) (md : AppSearchMetaData) :
  Metadata cfApp = Some md ->
  State (index (GetAppStats P (Guid md)).1 "0") ≠ "RUNNING"%string ->
  worker P (Some cfApp) = Ok None /\
  (forall s, ~ Produced P (Some cfApp) s) /\
  (forall st i,
     phase st = Active -> running st !! i = Some (Fetching (Some cfApp)) ->
     exists st', step P (Advance i) st = Some st' /\
       phase st' = Active /\ appStats st' = appStats st /\
       pending st' = pending st /\ running st' = delete i (running st) /\
       finished st' = S (finished st)).
Proof.
  intros Hmd Hstate.
  assert (worker P (Some cfApp) = Ok None) as Hw.
  { rewrite (worker_fetch P cfApp md Hmd).
    destruct (GetAppStats P (Guid md)).2; [done|].
    by apply summarise_not_running. }
  split_and!; [done| |].
  - intros s Hs%worker_Produced. congruence.
  - intros st i. by apply skip_step.
Qed.

(** C4 at [down], whose instance 0 has crashed while instance 1 runs. *)
Lemma C4_not_running_witness :
  worker (demo []) (resource "down" "down" "space" 1) = Ok None /\
  (forall s, ~ Produced (demo []) (resource "down" "down" "space" 1) s) /\
  (forall st i,
     phase st = Active ->
     running st !! i = Some (Fetching (resource "down" "down" "space" 1)) ->
     exists st', step (demo []) (Advance i) st = Some st' /\
       phase st' = Active /\ appStats st' = appStats st /\
       pending st' = pending st /\ running st' = delete i (running st) /\
       finished st' = S (finished st)).
Proof.
  apply (C4_not_running_gives_no_summary (demo []) _
           {| Guid := "down"; Url := EmptyString |}).
  - reflexivity.
  - vm_compute. discriminate.
Defined.

(** C5: when [GetAppStats] returns an error, the body returns without a
    summary and without a panic; the step that ends the goroutine leaves
    the slice, the rest of the listing and the other goroutines as they
    were; the run over a listing with such an element collects what the
    run over the listing without it collects, and ends with every
    goroutine done; and under no schedule is a crash of [Run] due to this
    element. *)
Theorem C5_fetch_error_skips_one_workload
    (P : Platform) (cfApp : AppSearchResoures) (md : AppSearchMetaData)
    (e : error) :
  Metadata cfApp = Some md ->
  (GetAppStats P (Guid md)).2 = Some e ->
  worker P (Some cfApp) = Ok None /\
  (forall st i,
     phase st = Active -> running st !! i = Some (Fetching (Some cfApp)) ->
     exists st', step P (Advance i) st = Some st' /\
       phase st' = Active /\ appStats st' = appStats st /\
       pending st' = pending st /\ running st' = delete i (running st) /\
       finished st' = S (finished st)) /\
  (forall l1 l2,
     summaries P (l1 ++ Some cfApp :: l2) = summaries P (l1 ++ l2)) /\
  (forall l1 l2,
     Calm P (l1 ++ l2) ->
     exec P (sequential (length (l1 ++ Some cfApp :: l2)))
          (start (l1 ++ Some cfApp :: l2))
     = {| pending := []; running := []; appStats := summaries P (l1 ++ l2);
          finished := S (length (l1 ++ l2)); phase := Joined |}) /\
  (forall apps sched p,
     phase (exec P sched (start apps)) = Crashed p ->
     exists app, app ∈ apps /\ app ≠ Some cfApp /\ worker P app = Panic p).
Proof.
  intros Hmd Herr.
  assert (worker P (Some cfApp) = Ok None) as Hw.
  { by rewrite (worker_fetch P cfApp md Hmd), Herr. }
  split_and!; [done| | | |].
  - intros st i. by apply skip_step.
  - intros l1 l2. by apply skip_summaries.
  - intros l1 l2. by apply skip_sequential.
  - intros apps sched p Hp.
    destruct (inv_crashed _ _ _ (reachable_Invariant P apps sched) p Hp)
      as (app & Happ & Hpanic).
    exists app. split_and!; [done| |done]. congruence.
Qed.

(** C5 at [gone], whose fetch fails in transport and then in parsing. *)
Lemma C5_fetch_error_witness :
  worker (demo []) (resource "gone" "gone" "space" 1) = Ok None /\
  (forall st i,
     phase st = Active ->
     running st !! i = Some (Fetching (resource "gone" "gone" "space" 1)) ->
     exists st', step (demo []) (Advance i) st = Some st' /\
       phase st' = Active /\ appStats st' = appStats st /\
       pending st' = pending st /\ running st' = delete i (running st) /\
       finished st' = S (finished st)) /\
  (forall l1 l2,
     summaries (demo []) (l1 ++ resource "gone" "gone" "space" 1 :: l2)
     = summaries (demo []) (l1 ++ l2)) /\
  (forall l1 l2,
     Calm (demo []) (l1 ++ l2) ->
     exec (demo [])
          (sequential (length (l1 ++ resource "gone" "gone" "space" 1 :: l2)))
          (start (l1 ++ resource "gone" "gone" "space" 1 :: l2))
     = {| pending := []; running := [];
          appStats := summaries (demo []) (l1 ++ l2);
          finished := S (length (l1 ++ l2)); phase := Joined |}) /\
  (forall apps sched p,
     phase (exec (demo []) sched (start apps)) = Crashed p ->
     exists app, app ∈ apps /\ app ≠ resource "gone" "gone" "space" 1 /\
       worker (demo []) app = Panic p).
Proof.
  apply (C5_fetch_error_skips_one_workload (demo []) _
           {| Guid := "gone"; Url := EmptyString |} syntaxError).
  - reflexivity.
  - vm_compute. reflexivity.
Defined.

(** C6, as stated, fails in its first half: the transport error is
    dropped. When the command fails and still leaves output that parses,
    here the empty object, [GetAppStats] returns a nil error. *)
Lemma C6_transport_error_is_dropped :
  CliCommandWithoutTerminalOutput (demo []) ["curl"%string; statsQuery "stale"]
  = (["{}"%string], Some transportError) /\
  GetAppStats (demo []) "stale" = (∅, None).
Proof. vm_compute. auto. Qed.

(** C6, amended: [GetAppStats] returns the map and the error of
    [json.Unmarshal] on the joined output lines, so a response that fails
    to parse gives the caller a non-nil error; the error of the transport
    has no part in the result. *)
Theorem C6_GetAppStats_returns_the_parse_error
    (P : Platform) (appGuid : string) :
  GetAppStats P appGuid
  = unmarshalStats P
      (join (CliCommandWithoutTerminalOutput P
               ["curl"%string; statsQuery appGuid]).1) /\
  (forall e, GetAppStats (withTransportError P e) appGuid = GetAppStats P appGuid).
Proof.
  unfold GetAppStats, withTransportError. simpl.
  destruct (CliCommandWithoutTerminalOutput P _) as [output e0]. simpl.
  destruct (unmarshalStats P (join output)) as [stats err]. done.
Qed.

(** C7: [GetAllApps] returns a nil error whatever the command and the
    decoder did; the listing is what [json.Unmarshal] left in [res], and
    the [panic(err)] of [Run] is never reached. *)
Theorem C7_GetAllApps_never_fails (P : Platform) :
  (GetAllApps P).2 = None /\
  (GetAllApps P).1
  = (unmarshalApps P
       (join (CliCommandWithoutTerminalOutput P
                ["curl"%string; "/v2/apps"%string]).1)).1 /\
  (forall e, GetAllApps (withTransportError P e) = GetAllApps P) /\
  (forall srt sched, Run P srt sched ≠ Panicked None).
Proof.
  split_and!.
  - apply GetAllApps_nil.
  - unfold GetAllApps.
    destruct (CliCommandWithoutTerminalOutput P _) as [output e]. simpl.
    by destruct (unmarshalApps P (join output)).
  - intros e. unfold GetAllApps, withTransportError. simpl.
    destruct (CliCommandWithoutTerminalOutput P _) as [output e0]. simpl.
    by destruct (unmarshalApps P (join output)).
  - intros srt sched. rewrite Run_unfold. by destruct (phase _).
Qed.

Lemma usage_sum_Permutation (l1 l2 : list Z) :
  l1 ≡ₚ l2 -> foldr Z.add 0 l1 = foldr Z.add 0 l2.
Proof. induction 1; simpl; lia. Qed.

Lemma exactUsage_usage (visited : list AppStat) :
  exactUsage visited = foldr Z.add 0 (usage <$> visited).
Proof. induction visited as [|a l IH]; simpl; [done|]. by rewrite IH. Qed.

Lemma entries_three (a0 a1 a2 : AppStat) :
  entries (<["0"%string := a0]> (<["1"%string := a1]> (<["2"%string := a2]> ∅)))
  ≡ₚ [a0; a1; a2].
Proof.
  unfold entries.
  rewrite !map_to_list_insert, map_to_list_empty; [done|by simplify_map_eq..].
Qed.

(** C8: three instances "0", "1", "2" that report 100, 200 and 300 bytes
    in use, instance 0 running with a quota of 600: the summary has the
    average 200 and the ratio 3.0. *)
Theorem C8_three_instances
    (P : Platform) (cfApp : AppSearchResoures) (md : AppSearchMetaData)
    (en : AppSearchEntity) (a0 a1 a2 : AppStat) :
  Metadata cfApp = Some md -> Entity cfApp = Some en ->
  GetAppStats P (Guid md)
  = (<["0"%string := a0]> (<["1"%string := a1]> (<["2"%string := a2]> ∅)), None) ->
  State a0 = "RUNNING"%string -> MemQuota (Stats a0) = 600 ->
  [usage a0; usage a1; usage a2] ≡ₚ [100; 200; 300] ->
  exists s, worker P (Some cfApp) = Ok (Some s) /\
    MemoryAlloc s = 600 /\ AvgMemoryUse s = 200 /\ Ratio s = F64.ofInt 3.
Proof.
  intros Hmd Hen Hfetch Hstate Hquota Husage.
  set (stats := <["0"%string := a0]> _) in *.
  assert (index stats "0" = a0) as Hindex.
  { unfold index, stats. by rewrite lookup_insert_eq. }
  assert (len stats = 3) as Hlen.
  { unfold len, stats.
    rewrite !map_size_insert_None, map_size_empty by by simplify_map_eq. done. }
  assert (totalUsage stats = 600) as Htotal.
  { unfold totalUsage, stats.
    rewrite (sumUsage_Permutation _ _ (entries_three a0 a1 a2)).
    rewrite sumUsage_exact, exactUsage_usage.
    change (usage <$> [a0; a1; a2]) with [usage a0; usage a1; usage a2].
    rewrite (usage_sum_Permutation _ _ Husage). reflexivity. }
  exists (summaryOf en md stats). split.
  - apply worker_Produced. eapply produced; eauto; rewrite Hfetch; simpl; auto.
  - unfold summaryOf. simpl. rewrite Hindex, Hquota, Htotal, Hlen.
    split_and!; reflexivity.
Qed.

(** C8 at [web]. *)
Lemma C8_three_instances_witness :
  exists s, worker (demo []) (resource "web" "web" "space" 1) = Ok (Some s) /\
    MemoryAlloc s = 600 /\ AvgMemoryUse s = 200 /\ Ratio s = F64.ofInt 3.
Proof.
  apply (C8_three_instances (demo []) _
           {| Guid := "web"; Url := EmptyString |}
           {| entityName := "web"; entityInstances := 1; SpaceGuid := "space" |}
           (instance "RUNNING" 600 100) (instance "RUNNING" 600 200)
           (instance "RUNNING" 600 300)).
  - reflexivity.
  - reflexivity.
  - vm_compute. reflexivity.
  - reflexivity.
  - reflexivity.
  - reflexivity.
Defined.

(** C9: in every state the fan-out can reach, at most two goroutines are
    between [wg.Add()] and [wg.Done()], so at most two [GetAppStats] calls
    are in flight; every element of the listing is waiting, running or
    done; once [wg.Wait()] has returned every one of them is done; and from
    every state the run can be brought to its end. [Run] returns its table
    only then. *)
Theorem C9_bounded_fan_out_and_join
    (P : Platform) (apps : list (option AppSearchResoures))
    (sched : list event) :
  limit = 2%nat /\
  (inFlight (exec P sched (start apps)) <= limit)%nat /\
  (length (running (exec P sched (start apps))) <= limit)%nat /\
  (length (pending (exec P sched (start apps)))
   + length (running (exec P sched (start apps)))
   + finished (exec P sched (start apps)) = length apps)%nat /\
  (phase (exec P sched (start apps)) = Joined ->
   pending (exec P sched (start apps)) = [] /\
   running (exec P sched (start apps)) = [] /\
   finished (exec P sched (start apps)) = length apps) /\
  (phase (exec P sched (start apps)) = Active ->
   Ended (exec P (sched ++ finishing (exec P sched (start apps))) (start apps))) /\
  (forall srt rows,
     Run P srt sched = Returned rows ->
     finished (exec P sched (start (Resources (GetAllApps P).1)))
     = length (Resources (GetAllApps P).1)).
Proof.
  pose proof (reachable_Invariant P apps sched) as Hinv.
  assert (forall l, phase (exec P sched (start l)) = Joined ->
            pending (exec P sched (start l)) = [] /\
            running (exec P sched (start l)) = [] /\
            finished (exec P sched (start l)) = length l) as Hjoined.
  { intros l Hphase. pose proof (reachable_Invariant P l sched) as Hl.
    destruct (inv_joined _ _ _ Hl Hphase) as [Hp Hr].
    pose proof (inv_count _ _ _ Hl) as Hc. rewrite Hp, Hr in Hc.
    split_and!; auto. }
  split_and!.
  - reflexivity.
  - etrans; [apply inFlight_le_running|apply (inv_limit _ _ _ Hinv)].
  - apply (inv_limit _ _ _ Hinv).
  - apply (inv_count _ _ _ Hinv).
  - apply Hjoined.
  - intros Hphase. rewrite exec_app. by apply finishing_Ended.
  - intros srt rows [Hphase _]%Run_Returned. by apply Hjoined.
Qed.

(** C10: the average of a summary is the truncated quotient of the total
    by the number of entries of the stats map fetched for the element the
    summary is of, the total being the exact sum when that sum fits an
    [int]; the ratio is computed from this truncated average. Two
    instances that use 1 and 2 bytes of a quota of 3 give the average 1
    and the ratio 3.0, above the 2.0 that the exact mean 1.5 gives. *)
Theorem C10_average_is_truncated
    (P : Platform) (app : option AppSearchResoures) (s : appStatSummary) :
  worker P app = Ok (Some s) ->
  (exists cfApp md stats,
     app = Some cfApp /\
     Metadata cfApp = Some md /\
     GetAppStats P (Guid md) = (stats, None) /\
     0 < len stats /\
     AvgMemoryUse s = Z.quot (totalUsage stats) (len stats) /\
     Ratio s = F64.div (F64.ofInt (MemoryAlloc s))
                       (F64.ofInt (Z.quot (totalUsage stats) (len stats))) /\
     (Int.inRange (exactUsage (entries stats)) ->
      totalUsage stats = exactUsage (entries stats))) /\
  (worker (demo []) (resource "pair" "pair" "space" 1)
   = Ok (Some (row "pair" 3 1 three)) /\
   Z.quot (1 + 2) 2 = 1 /\
   exactMeanRatio 3 (1 + 2) 2 = F64.ofInt 2 /\
   F64.ltb (exactMeanRatio 3 (1 + 2) 2) (Ratio (row "pair" 3 1 three)) = true).
Proof.
  intros [cfApp md en -> Hmd Hen Herr Hrunning ->]%worker_Produced.
  split; [|vm_compute; auto].
  exists cfApp, md, (GetAppStats P (Guid md)).1. split_and!.
  - reflexivity.
  - exact Hmd.
  - destruct (GetAppStats P (Guid md)) as [stats err]. simpl in *. by subst.
  - by apply len_pos_of_running.
  - reflexivity.
  - reflexivity.
  - intros Hrange. unfold totalUsage. by rewrite sumUsage_exact, wrap_id.
Qed.

(** C10 at [pair]. *)
Lemma C10_average_is_truncated_witness :
  (exists cfApp md stats,
     resource "pair" "pair" "space" 1 = Some cfApp /\
     Metadata cfApp = Some md /\
     GetAppStats (demo []) (Guid md) = (stats, None) /\
     0 < len stats /\
     AvgMemoryUse (row "pair" 3 1 three) = Z.quot (totalUsage stats) (len stats) /\
     Ratio (row "pair" 3 1 three)
     = F64.div (F64.ofInt (MemoryAlloc (row "pair" 3 1 three)))
               (F64.ofInt (Z.quot (totalUsage stats) (len stats))) /\
     (Int.inRange (exactUsage (entries stats)) ->
      totalUsage stats = exactUsage (entries stats))) /\
  (worker (demo []) (resource "pair" "pair" "space" 1)
   = Ok (Some (row "pair" 3 1 three)) /\
   Z.quot (1 + 2) 2 = 1 /\
   exactMeanRatio 3 (1 + 2) 2 = F64.ofInt 2 /\
   F64.ltb (exactMeanRatio 3 (1 + 2) 2) (Ratio (row "pair" 3 1 three)) = true).
Proof.
  apply (C10_average_is_truncated (demo []) (resource "pair" "pair" "space" 1)).
  vm_compute. reflexivity.
Defined.

(** * Further properties of the code *)

(** The append of line 133 is not synchronised: when two goroutines load
    the slice before either stores it, the later store drops the summary
    of the earlier one. Both summaries are computed, one row is printed. *)
Lemma unsynchronised_append_loses_a_summary :
  summaries (demo ["pair"%string; "web"%string])
            (Resources (GetAllApps (demo ["pair"%string; "web"%string])).1)
  = [row "pair" 3 1 three; row "web" 600 200 three] /\
  Run (demo ["pair"%string; "web"%string]) insertionSorter overlapping
  = Returned [row "pair" 3 1 three].
Proof. vm_compute. auto. Qed.

(** When the two appends overlap, a row of the table need not be the
    summary of any application: here the row left by the race has the name
    of [pair] and the allocation of [web], and a ratio that is not the
    quotient of its fields. *)
Lemma a_racing_append_can_tear_a_row :
  orderly (demo ["pair"%string; "web"%string]) torn
    (start (Resources (GetAllApps (demo ["pair"%string; "web"%string])).1))
  = false /\
  Run (demo ["pair"%string; "web"%string]) insertionSorter torn
  = Returned [row "pair" 600 1 three] /\
  F64.div (F64.ofInt 600) (F64.ofInt 1) = F64.ofInt 600.
Proof. vm_compute. auto. Qed.

(** When the goroutines run one after the other and none panics, [Run]
    prints the sorted summaries of the whole listing. *)
Theorem sequential_Run (P : Platform) (srt : Sorter) :
  Calm P (Resources (GetAllApps P).1) ->
  Run P srt (sequential (length (Resources (GetAllApps P).1)))
  = Returned (Sort srt appStatSummary Less
                (summaries P (Resources (GetAllApps P).1))).
Proof.
  intros Hcalm. rewrite Run_unfold, sequential_exec by done. reflexivity.
Qed.

(** [sequential_Run] at a listing with an application whose fetch fails. *)
Lemma sequential_Run_witness :
  Run (demo ["pair"%string; "gone"%string; "idle"%string]) insertionSorter
      (sequential
         (length (Resources
                    (GetAllApps (demo ["pair"%string; "gone"%string;
                                       "idle"%string])).1)))
  = Returned (Sort insertionSorter appStatSummary Less
                (summaries (demo ["pair"%string; "gone"%string; "idle"%string])
                   (Resources
                      (GetAllApps (demo ["pair"%string; "gone"%string;
                                         "idle"%string])).1))).
Proof.
  apply (sequential_Run (demo ["pair"%string; "gone"%string; "idle"%string])
           insertionSorter).
  unfold Calm.
  replace (Resources (GetAllApps (demo ["pair"%string; "gone"%string;
                                        "idle"%string])).1)
    with [resource "pair" "pair" "space" 1; resource "gone" "gone" "space" 1;
          resource "idle" "idle" "space" 1] by (vm_compute; reflexivity).
  repeat (apply Forall_cons; split; [eexists; vm_compute; reflexivity|]).
  apply Forall_nil. done.
Defined.

(** The total of lines 118-121 does not depend on the order in which the
    [range] visits the map. *)
Theorem totalUsage_any_order (stats : gmap string AppStat)
    (visited : list AppStat) :
  visited ≡ₚ entries stats -> sumUsage visited = totalUsage stats.
Proof. intros H. unfold totalUsage. by apply sumUsage_Permutation. Qed.

(** [totalUsage_any_order] at the entries of [web], visited 2, 0, 1. *)
Lemma totalUsage_any_order_witness :
  sumUsage [instance "RUNNING" 600 300; instance "RUNNING" 600 100;
            instance "RUNNING" 600 200]
  = totalUsage webStats.
Proof.
  apply (totalUsage_any_order webStats).
  unfold webStats. rewrite entries_three.
  etrans; [apply Permutation_swap|]. apply Permutation_skip, Permutation_swap.
Defined.

(** The body panics only on a nil pointer: the element of the listing, its
    metadata or its entity. *)
Theorem worker_panics_on_nil_only (P : Platform)
    (app : option AppSearchResoures) (p : panic) :
  worker P app = Panic p ->
  p = NilPointerDereference /\
  (app = None \/
   exists cfApp, app = Some cfApp /\
     (Metadata cfApp = None \/ Entity cfApp = None)).
Proof.
  destruct app as [cfApp|]; [|intros [= <-]; auto].
  destruct (Metadata cfApp) as [md|] eqn:Hmd.
  - rewrite (worker_fetch P cfApp md Hmd).
    destruct (GetAppStats P (Guid md)).2; [discriminate|].
    destruct (decide (State (index (GetAppStats P (Guid md)).1 "0")
                      = "RUNNING"%string)) as [Hrun|Hrun].
    + rewrite summarise_running by done.
      destruct (Entity cfApp) eqn:Hen; [discriminate|].
      intros [= <-]. split; [done|]. right. exists cfApp. auto.
    + rewrite summarise_not_running by done. discriminate.
  - unfold worker. simpl. rewrite Hmd. simpl.
    intros [= <-]. split; [done|]. right. exists cfApp. auto.
Qed.

(** [worker_panics_on_nil_only] at a nil element of the listing. *)
Lemma worker_panics_on_nil_only_witness :
  NilPointerDereference = NilPointerDereference /\
  (@None AppSearchResoures = None \/
   exists cfApp, None = Some cfApp /\
     (Metadata cfApp = None \/ Entity cfApp = None)).
Proof.
  apply (worker_panics_on_nil_only (demo []) None NilPointerDereference).
  reflexivity.
Defined.

(** The ratio of a summary is NaN exactly when its allocation and its
    average are both zero, and an infinity when only the average is zero.
    The allocation is an [int] in the code, which is the range assumed. *)
Theorem ratio_of_a_summary (P : Platform) (app : option AppSearchResoures)
    (s : appStatSummary) :
  worker P app = Ok (Some s) -> Int.inRange (MemoryAlloc s) ->
  (F64.isNaN (Ratio s) = true <-> MemoryAlloc s = 0 /\ AvgMemoryUse s = 0) /\
  (AvgMemoryUse s = 0 -> MemoryAlloc s ≠ 0 ->
   Ratio s = S754_infinity (MemoryAlloc s <? 0)).
Proof.
  intros [cfApp md en -> Hmd Hen Herr Hrunning ->]%worker_Produced Halloc.
  simpl in *.
  assert (Int.inRange (Z.quot (totalUsage (GetAppStats P (Guid md)).1)
                              (len (GetAppStats P (Guid md)).1))) as Havg.
  { apply quot_inRange; [apply totalUsage_inRange|by apply len_pos_of_running]. }
  split.
  - by apply ratio_NaN.
  - intros -> Hne. by apply ratio_infinite.
Qed.

(** [ratio_of_a_summary] at [void], whose ratio is 0/0. *)
Lemma ratio_of_a_summary_witness :
  (F64.isNaN (Ratio (row "void" 0 0 S754_nan)) = true
   <-> MemoryAlloc (row "void" 0 0 S754_nan) = 0
       /\ AvgMemoryUse (row "void" 0 0 S754_nan) = 0) /\
  (AvgMemoryUse (row "void" 0 0 S754_nan) = 0 ->
   MemoryAlloc (row "void" 0 0 S754_nan) ≠ 0 ->
   Ratio (row "void" 0 0 S754_nan)
   = S754_infinity (MemoryAlloc (row "void" 0 0 S754_nan) <? 0)).
Proof.
  apply (ratio_of_a_summary (demo []) (resource "void" "void" "space" 1)).
  - vm_compute. reflexivity.
  - vm_compute. split; discriminate.
Defined.

(** ** The table of a run without the data race *)

Lemma summaries_length (P : Platform) (apps : list (option AppSearchResoures)) :
  (length (summaries P apps) <= length apps)%nat.
Proof.
  induction apps as [|app apps IH]; [done|].
  rewrite summaries_cons, length_app, summaries_one.
  destruct (worker P app) as [[s|]|p]; simpl; lia.
Qed.

(** In a run in which no two goroutines are inside the append of line 133
    at the same time, whatever else the schedule is, the rows of the table
    are the summaries of the listing, each as often as the listing gives
    it: no row is made up, none is lost, and no application is printed
    twice for one element of the listing; there are at most as many rows
    as elements. *)
Theorem rows_are_the_summaries_without_a_race
    (P : Platform) (srt : Sorter) (sched : list event)
    (rows : list appStatSummary) :
  orderly P sched (start (Resources (GetAllApps P).1)) = true ->
  Run P srt sched = Returned rows ->
  rows ≡ₚ summaries P (Resources (GetAllApps P).1) /\
  (length rows <= length (Resources (GetAllApps P).1))%nat.
Proof.
  intros Hord Hrun.
  pose proof (orderly_rows P srt sched rows Hord Hrun) as Hrows.
  split; [done|]. rewrite Hrows. apply summaries_length.
Qed.

(** [rows_are_the_summaries_without_a_race] at a run of two goroutines
    that fetch at the same time and append one after the other. *)
Lemma rows_are_the_summaries_without_a_race_witness :
  [row "pair" 3 1 three; row "web" 600 200 three]
  ≡ₚ summaries (demo ["pair"%string; "web"%string])
       (Resources (GetAllApps (demo ["pair"%string; "web"%string])).1) /\
  (length [row "pair" 3 1 three; row "web" 600 200 three]
   <= length (Resources (GetAllApps (demo ["pair"%string; "web"%string])).1))%nat.
Proof.
  apply (rows_are_the_summaries_without_a_race
           (demo ["pair"%string; "web"%string]) insertionSorter interleaved).
  - vm_compute. reflexivity.
  - vm_compute. reflexivity.
Defined.

Lemma Join_elem_of_cons (ev : event) (sched : list event) :
  ev ≠ Join -> bool_decide (Join ∈ ev :: sched) = bool_decide (Join ∈ sched).
Proof.
  intros Hev. apply bool_decide_ext. rewrite elem_of_cons.
  split; [intros [Heq|Hin]; [congruence|done]|by right].
Qed.

Lemma exec_empty_listing (P : Platform) (sched : list event) :
  exec P sched (start [])
  = if bool_decide (Join ∈ sched) then enter Joined (start []) else start [].
Proof.
  induction sched as [|ev sched IH]; [done|].
  change (exec P (ev :: sched) (start []))
    with (exec P sched (perform P (start []) ev)).
  destruct ev as [|i| |rows|i stat loaded|].
  - rewrite Join_elem_of_cons by done. exact IH.
  - rewrite Join_elem_of_cons by done. exact IH.
  - rewrite bool_decide_eq_true_2 by left. by apply exec_inactive.
  - rewrite Join_elem_of_cons by done. exact IH.
  - rewrite Join_elem_of_cons by done. exact IH.
  - rewrite Join_elem_of_cons by done. exact IH.
Qed.

(** An empty listing, which is also what a failed or unparseable listing
    request leaves, gives the empty table and no panic: [Run] returns as
    soon as [wg.Wait()] is scheduled. *)
Theorem Run_on_an_empty_listing
    (P : Platform) (srt : Sorter) (sched : list event) :
  Resources (GetAllApps P).1 = [] ->
  Run P srt sched
  = if bool_decide (Join ∈ sched) then Returned [] else Blocked (start []).
Proof.
  intros Hempty. rewrite Run_unfold, Hempty, exec_empty_listing.
  case_bool_decide; simpl; [|done].
  f_equal. apply Permutation_nil_r, Sort_Permutation.
Qed.

(** [Run_on_an_empty_listing] on a platform whose every command fails. *)
Lemma Run_on_an_empty_listing_witness :
  Run unreachable insertionSorter [Dispatch; Advance 0; Join]
  = if bool_decide (Join ∈ [Dispatch; Advance 0; Join])
    then Returned [] else Blocked (start []).
Proof.
  apply (Run_on_an_empty_listing unreachable insertionSorter).
  vm_compute. reflexivity.
Defined.

Lemma Ascending_lookup {A : Type} (less : A -> A -> bool) (l : list A)
    (i j : nat) (x y : A) :
  Ascending less l -> (i < j)%nat -> l !! i = Some x -> l !! j = Some y ->
  less y x = false.
Proof.
  unfold Ascending. intros Hsorted. revert i j.
  induction Hsorted as [|a l Hl IH Ha]; intros i j Hij Hi Hj; [done|].
  destruct j as [|j]; [lia|]. simpl in Hj.
  destruct i as [|i]; simpl in Hi.
  - injection Hi as ->. rewrite Forall_forall in Ha.
    apply Ha. by eapply list_elem_of_lookup_2.
  - apply (IH i j); [lia|done..].
Qed.

(** Without NaN among the ratios, every row has a ratio at least as large
    as every row below it, not only the next one; the first row is the
    largest ratio of the table. *)
Theorem every_row_dominates_the_rows_below
    (P : Platform) (srt : Sorter) (sched : list event)
    (rows : list appStatSummary) (i j : nat) (a b : appStatSummary) :
  Run P srt sched = Returned rows ->
  (forall s, s ∈ rows -> F64.isNaN (Ratio s) = false) ->
  (i < j)%nat -> rows !! i = Some a -> rows !! j = Some b ->
  F64.geb (Ratio a) (Ratio b) = true.
Proof.
  intros [_ ->]%Run_Returned Hnan Hij Hi Hj.
  assert (F64.isNaN (Ratio a) = false)
    by (apply Hnan; by eapply list_elem_of_lookup_2).
  assert (F64.isNaN (Ratio b) = false)
    by (apply Hnan; by eapply list_elem_of_lookup_2).
  apply geb_key; [done..|]. apply ltb_false_key; [done..|].
  change (Less b a = false).
  eapply Ascending_lookup; [|exact Hij|exact Hi|exact Hj].
  apply Sort_Ascending, Less_Ordering.
  intros s Hs. apply Hnan. by rewrite Sort_Permutation.
Qed.

(** [every_row_dominates_the_rows_below] at the first and the last of
    three rows. *)
Lemma every_row_dominates_the_rows_below_witness :
  F64.geb (Ratio (row "idle" 1024 0 positiveInfinity))
          (Ratio (row "web" 600 200 three)) = true.
Proof.
  apply (every_row_dominates_the_rows_below
           (demo ["pair"%string; "web"%string; "idle"%string])
           insertionSorter (sequential 3)
           [row "idle" 1024 0 positiveInfinity; row "pair" 3 1 three;
            row "web" 600 200 three] 0 2).
  - vm_compute. reflexivity.
  - intros s Hs. repeat (apply elem_of_cons in Hs as [->|Hs]; [reflexivity|]).
    by apply elem_of_nil in Hs.
  - lia.
  - reflexivity.
  - reflexivity.
Defined.

(** ** The methods of [byRatio] as [sort.Sort] needs them *)

Lemma ltb_irrefl (x : spec_float) : F64.ltb x x = false.
Proof.
  destruct (F64.isNaN x) eqn:Hx.
  - by destruct x.
  - apply ltb_false_key; [done..|]. unfold keyLt. lia.
Qed.

Lemma ltb_asym (x y : spec_float) : F64.ltb x y = true -> F64.ltb y x = false.
Proof.
  intros Hxy.
  destruct (F64.isNaN x) eqn:Hx; [by destruct x|].
  destruct (F64.isNaN y) eqn:Hy; [by destruct x, y|].
  apply ltb_false_key; [done..|]. apply ltb_key in Hxy; [|done..].
  unfold keyLt in *. lia.
Qed.

(** [Swap] and [Less] in full: inside the slice [Swap] exchanges the two
    elements, leaves the other ones and the length alone and is undone by
    a second [Swap]; [Less] compares the ratios, is never true of an
    element with itself nor in both directions, NaN included; outside the
    slice both panic with an index out of range. *)
Theorem byRatio_methods (a : list appStatSummary) (i j : nat) :
  match Swap a i j with
  | Ok a' =>
      (i < Len a)%nat /\ (j < Len a)%nat /\
      a' !! i = a !! j /\ a' !! j = a !! i /\
      (forall k, k ≠ i -> k ≠ j -> a' !! k = a !! k) /\
      Len a' = Len a /\ a' ≡ₚ a /\ Swap a' i j = Ok a
  | Panic p => p = IndexOutOfRange /\ ((Len a <= i)%nat \/ (Len a <= j)%nat)
  end /\
  match LessAt a i j with
  | Ok b =>
      (exists x y, a !! i = Some x /\ a !! j = Some y /\
                   b = F64.ltb (Ratio y) (Ratio x)) /\
      (i = j -> b = false) /\
      (b = true -> LessAt a j i = Ok false)
  | Panic p => p = IndexOutOfRange /\ ((Len a <= i)%nat \/ (Len a <= j)%nat)
  end.
Proof.
  unfold Swap, LessAt, at_, Len. split.
  - destruct (a !! i) as [x|] eqn:Hi; simpl;
      [|split; [done|left; by apply lookup_ge_None]].
    destruct (a !! j) as [y|] eqn:Hj; simpl;
      [|split; [done|right; by apply lookup_ge_None]].
    pose proof (lookup_lt_Some _ _ _ Hi) as Hli.
    pose proof (lookup_lt_Some _ _ _ Hj) as Hlj.
    assert (<[j:=x]> (<[i:=y]> a) !! i = Some y) as Hi'.
    { destruct (decide (i = j)) as [->|Hne].
      - rewrite list_lookup_insert_eq by by rewrite length_insert. congruence.
      - rewrite list_lookup_insert_ne by done. by rewrite list_lookup_insert_eq. }
    assert (<[j:=x]> (<[i:=y]> a) !! j = Some x) as Hj'.
    { by rewrite list_lookup_insert_eq by by rewrite length_insert. }
    split_and!; try done.
    + intros k Hki Hkj. by rewrite !list_lookup_insert_ne.
    + by rewrite !length_insert.
    + by apply insert_swap_Permutation.
    + rewrite Hi', Hj'. simpl. f_equal.
      apply list_eq. intros k.
      destruct (decide (k = j)) as [->|Hkj].
      * rewrite list_lookup_insert_eq by by rewrite !length_insert. done.
      * rewrite list_lookup_insert_ne by done.
        destruct (decide (k = i)) as [->|Hki].
        -- rewrite list_lookup_insert_eq by by rewrite !length_insert. done.
        -- by rewrite !list_lookup_insert_ne.
  - destruct (a !! j) as [y|] eqn:Hj; simpl;
      [|split; [done|right; by apply lookup_ge_None]].
    destruct (a !! i) as [x|] eqn:Hi; simpl;
      [|split; [done|left; by apply lookup_ge_None]].
    split_and!.
    + by exists x, y.
    + intros ->. assert (x = y) as -> by congruence. apply ltb_irrefl.
    + intros Hlt. f_equal. by apply ltb_asym.
Qed.

(** On a slice without NaN among its ratios [Less] is the ordering that
    [sort.Interface] asks for; with a NaN it is not: 2.0 is not less than
    NaN, NaN is not less than 1.0, and yet 2.0 sorts before 1.0. *)
Theorem Less_is_an_ordering_without_NaN (rows : list appStatSummary) :
  (forall s, s ∈ rows -> F64.isNaN (Ratio s) = false) ->
  Ordering Less rows /\
  (Less (row "b" 2 1 (F64.ofInt 2)) (row "n" 0 0 S754_nan) = false /\
   Less (row "n" 0 0 S754_nan) (row "a" 1 1 (F64.ofInt 1)) = false /\
   Less (row "b" 2 1 (F64.ofInt 2)) (row "a" 1 1 (F64.ofInt 1)) = true).
Proof.
  intros Hnan. split; [by apply Less_Ordering|]. vm_compute. auto.
Qed.

(** [Less_is_an_ordering_without_NaN] at two rows with the same ratio and
    one with an infinite ratio. *)
Lemma Less_is_an_ordering_without_NaN_witness :
  Ordering Less [row "idle" 1024 0 positiveInfinity; row "pair" 3 1 three;
                 row "web" 600 200 three] /\
  (Less (row "b" 2 1 (F64.ofInt 2)) (row "n" 0 0 S754_nan) = false /\
   Less (row "n" 0 0 S754_nan) (row "a" 1 1 (F64.ofInt 1)) = false /\
   Less (row "b" 2 1 (F64.ofInt 2)) (row "a" 1 1 (F64.ofInt 1)) = true).
Proof.
  apply (Less_is_an_ordering_without_NaN
           [row "idle" 1024 0 positiveInfinity; row "pair" 3 1 three;
            row "web" 600 200 three]).
  intros s Hs. repeat (apply elem_of_cons in Hs as [->|Hs]; [reflexivity|]).
  by apply elem_of_nil in Hs.
Defined.

(** ** The requests *)

Lemma append_length (s1 s2 : string) :
  String.length (s1 +:+ s2) = (String.length s1 + String.length s2)%nat.
Proof. induction s1 as [|c s1 IH]; simpl; [done|]. by rewrite IH. Qed.

Lemma append_inj_suffix (s1 s2 t : string) : s1 +:+ t = s2 +:+ t -> s1 = s2.
Proof.
  revert s2. induction s1 as [|c s1 IH]; intros [|c' s2] H.
  - done.
  - exfalso. apply (f_equal String.length) in H.
    rewrite !append_length in H. simpl in H. lia.
  - exfalso. apply (f_equal String.length) in H.
    rewrite !append_length in H. simpl in H. lia.
  - change (String c (s1 +:+ t) = String c' (s2 +:+ t)) in H.
    injection H as -> H. f_equal. by apply IH.
Qed.

(** The stats of two applications are asked for at the same path only
    when the applications have the same guid, and never at the path of
    the listing. *)
Theorem statsQuery_tells_applications_apart (guid1 guid2 : string) :
  (statsQuery guid1 = statsQuery guid2 <-> guid1 = guid2) /\
  statsQuery guid1 ≠ "/v2/apps"%string.
Proof.
  unfold statsQuery. split; [split|].
  - intros H. apply (String.app_inj "/v2/apps/") in H.
    by apply append_inj_suffix in H.
  - by intros ->.
  - intros H. apply (f_equal String.length) in H.
    rewrite !append_length in H. simpl in H. lia.
Qed.

(** ** A listing with its pointers set *)

Lemma WellFormed_Calm (P : Platform) (apps : list (option AppSearchResoures)) :
  WellFormed apps -> Calm P apps.
Proof.
  unfold WellFormed, Calm. intros Hwf. eapply Forall_impl; [exact Hwf|].
  intros app (cfApp & md & en & -> & Hmd & Hen).
  rewrite (worker_fetch P cfApp md Hmd).
  destruct (GetAppStats P (Guid md)).2; [by eexists|].
  destruct (decide (State (index (GetAppStats P (Guid md)).1 "0")
                    = "RUNNING"%string)) as [Hrun|Hrun].
  - rewrite summarise_running, Hen by done. by eexists.
  - rewrite summarise_not_running by done. by eexists.
Qed.

Lemma Calm_never_Crashed (P : Platform) (apps : list (option AppSearchResoures))
    (sched : list event) (p : panic) :
  Calm P apps -> phase (exec P sched (start apps)) ≠ Crashed p.
Proof.
  intros Hcalm Hp.
  destruct (inv_crashed _ _ _ (reachable_Invariant P apps sched) p Hp)
    as (app & Happ & Hpanic).
  unfold Calm in Hcalm. rewrite Forall_forall in Hcalm.
  destruct (Hcalm app Happ) as [r Hr]. congruence.
Qed.

Section Completion.
Context (P : Platform).

Lemma orderly_app (s1 s2 : list event) (st : state) :
  orderly P (s1 ++ s2) st
  = orderly P s1 st && orderly P s2 (exec P s1 st).
Proof.
  revert st. induction s1 as [|ev s1 IH]; intros st.
  - destruct s2; simpl; by destruct (overlap st).
  - change (exec P (ev :: s1) st) with (exec P s1 (perform P st ev)).
    simpl. rewrite IH. by rewrite andb_assoc.
Qed.

Lemma orderly_last (sched : list event) (st : state) :
  orderly P sched st = true -> overlap (exec P sched st) = false.
Proof.
  revert st. induction sched as [|ev sched IH]; intros st.
  - simpl. rewrite andb_true_r. apply negb_true_iff.
  - intros [_ Hord]%orderly_head. by apply IH.
Qed.

Lemma orderly_inactive (sched : list event) (st : state) :
  phase st ≠ Active -> overlap st = false -> orderly P sched st = true.
Proof.
  intros Hphase Hov. induction sched as [|ev sched IH]; simpl.
  - by rewrite Hov.
  - unfold perform. rewrite step_inactive by done. simpl. by rewrite Hov.
Qed.

Lemma Quiet_overlap (st : state) : Quiet st -> overlap st = false.
Proof.
  unfold Quiet, overlap, inAppend. intros Hq.
  apply bool_decide_eq_false.
  destruct (running st) as [|g gs]; simpl in *; [lia|].
  apply storing_none in Hq. destruct (storing g); simpl; lia.
Qed.

Lemma Forall_tail {A : Type} (Q : A -> Prop) (l : list A) :
  Forall Q l -> Forall Q (tail l).
Proof. by destruct 1. Qed.

Lemma perform_Quiet (ev : event) (st : state) :
  ev = Dispatch \/ ev = Advance 0 \/ ev = Join ->
  Quiet st -> Quiet (perform P st ev).
Proof.
  intros Hev Hq. unfold perform, step.
  destruct (phase st) eqn:Hphase; try done.
  destruct Hev as [->| [->| ->]].
  - destruct (pending st) as [|app rest]; [done|].
    case_bool_decide; [|done]. unfold Quiet in *. simpl.
    destruct (running st) as [|g gs]; simpl in *; [done|].
    apply Forall_app. split; [done|]. by constructor.
  - destruct (running st) as [|g gs] eqn:Hrun; [done|]. simpl.
    unfold Quiet in *. rewrite Hrun in Hq. simpl in Hq.
    destruct g as [app|stat|stat loaded]; simpl.
    + destruct (worker P app) as [[r|]|p]; simpl; rewrite ?Hrun; simpl;
        try done. by apply Forall_tail.
    + by rewrite Hrun.
    + rewrite Hrun. simpl. by apply Forall_tail.
  - destruct (pending st); [|done]. by destruct (running st).
Qed.

Lemma Quiet_orderly (sched : list event) (st : state) :
  Forall (fun ev => ev = Dispatch \/ ev = Advance 0 \/ ev = Join) sched ->
  Quiet st -> orderly P sched st = true.
Proof.
  intros Hsched. revert st.
  induction Hsched as [|ev sched Hev _ IH]; intros st Hq; simpl.
  - by rewrite (Quiet_overlap st Hq).
  - rewrite (Quiet_overlap st Hq). simpl. apply IH. by apply perform_Quiet.
Qed.

Lemma finishing_events (st : state) :
  Forall (fun ev => ev = Dispatch \/ ev = Advance 0 \/ ev = Join) (finishing st).
Proof.
  unfold finishing, sequential. rewrite !Forall_app. split_and!.
  - apply Forall_replicate. auto.
  - induction (length (pending st)) as [|n IH]; simpl; [constructor|].
    repeat (constructor; [auto|]). exact IH.
  - constructor; auto.
Qed.

(** The goroutine inside the append stores, and none is inside after. *)
Lemma settle_Quiet (st : state) :
  phase st = Active -> overlap st = false ->
  orderly P (settle st) st = true /\
  Quiet (exec P (settle st) st) /\
  phase (exec P (settle st) st) = Active.
Proof.
  intros Hphase Hov. unfold settle.
  destruct (list_find _ (running st)) as [[i g]|] eqn:Hfind.
  - apply list_find_Some in Hfind as (Hi & Hg & _).
    destruct g as [app|stat|stat loaded]; try discriminate.
    assert (perform P st (Advance i) = retire i (loaded ++ [stat]) st) as Hstep.
    { unfold perform, step. by rewrite Hphase, Hi. }
    pose proof (alone_in_the_append st i _ Hov Hi eq_refl) as Halone.
    assert (Quiet (retire i (loaded ++ [stat]) st)) as Hq.
    { unfold Quiet. simpl. by apply Forall_tail. }
    simpl. rewrite Hstep, Hov, (Quiet_overlap _ Hq). by split_and!.
  - apply list_find_None in Hfind. simpl. rewrite Hov. split_and!; [done| |done].
    unfold Quiet. apply Forall_tail. eapply Forall_impl; [exact Hfind|].
    simpl. intros g Hg. by destruct (storing g).
Qed.
End Completion.

(** When every element of the listing has its metadata and its entity, a
    run in which no two goroutines are inside the append of line 133 at
    the same time cannot crash, whatever the platform answers to the
    stats requests: no goroutine panics, no append writes outside its
    array, and from every state the run reaches, the schedule
    [completion] brings it, again without the race, to the return of
    [wg.Wait()] with every goroutine done. *)
Theorem a_well_formed_listing_completes_without_a_race
    (P : Platform) (apps : list (option AppSearchResoures))
    (sched : list event) :
  WellFormed apps ->
  orderly P sched (start apps) = true ->
  (forall p, phase (exec P sched (start apps)) ≠ Crashed p) /\
  phase (exec P sched (start apps)) ≠ Corrupted /\
  orderly P (sched ++ completion P (exec P sched (start apps))) (start apps)
  = true /\
  phase (exec P (sched ++ completion P (exec P sched (start apps))) (start apps))
  = Joined /\
  finished (exec P (sched ++ completion P (exec P sched (start apps)))
              (start apps))
  = length apps.
Proof.
  intros Hcalm%(WellFormed_Calm P) Hord.
  pose proof (orderly_last P sched _ Hord) as Hov.
  pose proof (orderly_never_Corrupted P apps sched Hord) as Hnc.
  assert (orderly P (completion P (exec P sched (start apps)))
            (exec P sched (start apps)) = true /\
          phase (exec P (sched ++ completion P (exec P sched (start apps)))
                   (start apps)) = Joined) as [Hord' Hjoined].
  { destruct (phase (exec P sched (start apps))) as [|p| |] eqn:Hphase.
    - destruct (settle_Quiet P _ Hphase Hov) as (Hs & Hq & Hactive).
      unfold completion at 1. rewrite orderly_app, Hs. simpl. split.
      + apply Quiet_orderly; [apply finishing_events|done].
      + destruct (finishing_Ended P _ Hactive) as [Hj|[p Hp]].
        * unfold completion. by rewrite !exec_app.
        * rewrite <- !exec_app in Hp. by apply Calm_never_Crashed in Hp.
    - by apply Calm_never_Crashed in Hphase.
    - split.
      + apply orderly_inactive; [by rewrite Hphase|done].
      + rewrite exec_app, exec_inactive; [done|]. by rewrite Hphase.
    - done. }
  split_and!; [intros p; by apply Calm_never_Crashed|done| |done|].
  - by rewrite orderly_app, Hord, Hord'.
  - pose proof (reachable_Invariant P apps
                  (sched ++ completion P (exec P sched (start apps)))) as Hinv.
    destruct (inv_joined _ _ _ Hinv Hjoined) as [Hp Hr].
    pose proof (inv_count _ _ _ Hinv) as Hc. rewrite Hp, Hr in Hc.
    simpl in Hc. lia.
Qed.

(** [a_well_formed_listing_completes_without_a_race] at a listing whose
    second application cannot be fetched, stopped while the goroutine of
    the first is inside the append. *)
Lemma a_well_formed_listing_completes_without_a_race_witness :
  (forall p,
     phase (exec (demo []) [Dispatch; Dispatch; Advance 0; Advance 0]
              (start [resource "web" "web" "space" 1;
                      resource "gone" "gone" "space" 1])) ≠ Crashed p) /\
  phase (exec (demo []) [Dispatch; Dispatch; Advance 0; Advance 0]
           (start [resource "web" "web" "space" 1;
                   resource "gone" "gone" "space" 1])) ≠ Corrupted /\
  orderly (demo [])
    ([Dispatch; Dispatch; Advance 0; Advance 0]
     ++ completion (demo [])
          (exec (demo []) [Dispatch; Dispatch; Advance 0; Advance 0]
             (start [resource "web" "web" "space" 1;
                     resource "gone" "gone" "space" 1])))
    (start [resource "web" "web" "space" 1; resource "gone" "gone" "space" 1])
  = true /\
  phase (exec (demo [])
           ([Dispatch; Dispatch; Advance 0; Advance 0]
            ++ completion (demo [])
                 (exec (demo []) [Dispatch; Dispatch; Advance 0; Advance 0]
                    (start [resource "web" "web" "space" 1;
                            resource "gone" "gone" "space" 1])))
           (start [resource "web" "web" "space" 1;
                   resource "gone" "gone" "space" 1]))
  = Joined /\
  finished (exec (demo [])
              ([Dispatch; Dispatch; Advance 0; Advance 0]
               ++ completion (demo [])
                    (exec (demo []) [Dispatch; Dispatch; Advance 0; Advance 0]
                       (start [resource "web" "web" "space" 1;
                               resource "gone" "gone" "space" 1])))
              (start [resource "web" "web" "space" 1;
                      resource "gone" "gone" "space" 1]))
  = length [resource "web" "web" "space" 1; resource "gone" "gone" "space" 1].
Proof.
  apply (a_well_formed_listing_completes_without_a_race (demo [])
           [resource "web" "web" "space" 1; resource "gone" "gone" "space" 1]
           [Dispatch; Dispatch; Advance 0; Advance 0]).
  - repeat constructor; eexists _, _, _; split_and!; reflexivity.
  - vm_compute. reflexivity.
Defined.

(** ** What [Run] reads of the platform *)

Section SameAnswers.
Context (P Q : Platform) (same : SameAnswers P Q).

Lemma GetAppStats_same (appGuid : string) :
  GetAppStats P appGuid = GetAppStats Q appGuid.
Proof.
  destruct same as (Hout & Hstats & _). unfold GetAppStats.
  specialize (Hout ["curl"%string; statsQuery appGuid]).
  destruct (CliCommandWithoutTerminalOutput P _) as [outP eP].
  destruct (CliCommandWithoutTerminalOutput Q _) as [outQ eQ].
  simpl in Hout. by rewrite Hout, Hstats.
Qed.

Lemma GetAllApps_same : GetAllApps P = GetAllApps Q.
Proof.
  destruct same as (Hout & _ & Happs). unfold GetAllApps.
  specialize (Hout ["curl"%string; "/v2/apps"%string]).
  destruct (CliCommandWithoutTerminalOutput P _) as [outP eP].
  destruct (CliCommandWithoutTerminalOutput Q _) as [outQ eQ].
  simpl in Hout. specialize (Happs (join outP)). rewrite <- Hout.
  destruct (unmarshalApps P (join outP)) as [resP errP].
  destruct (unmarshalApps Q (join outP)) as [resQ errQ].
  simpl in Happs. by subst.
Qed.

Lemma worker_same (app : option AppSearchResoures) :
  worker P app = worker Q app.
Proof.
  unfold worker. destruct app as [cfApp|]; simpl; [|done].
  destruct (Metadata cfApp) as [md|]; simpl; [|done].
  by rewrite GetAppStats_same.
Qed.

Lemma step_same (ev : event) (st : state) : step P ev st = step Q ev st.
Proof.
  unfold step. destruct (phase st); try done.
  destruct ev as [|i| |rows|i stat loaded|]; try done.
  destruct (running st !! i) as [g|]; [|done].
  f_equal. unfold advance. destruct g; try done. by rewrite worker_same.
Qed.

Lemma exec_same (sched : list event) (st : state) :
  exec P sched st = exec Q sched st.
Proof.
  revert st. induction sched as [|ev sched IH]; intros st; [done|].
  change (exec P (ev :: sched) st) with (exec P sched (perform P st ev)).
  change (exec Q (ev :: sched) st) with (exec Q sched (perform Q st ev)).
  unfold perform. by rewrite step_same, IH.
Qed.
End SameAnswers.

(** [Run] reads of the platform only the joined output of the commands,
    the decoded stats with their parse error and the decoded listing: the
    errors of the command channel, the parse error of the listing and the
    cut of the output into lines change nothing of its outcome, under any
    schedule. *)
Theorem Run_reads_only_the_answers
    (P Q : Platform) (srt : Sorter) (sched : list event) :
  SameAnswers P Q -> Run P srt sched = Run Q srt sched.
Proof.
  intros Hsame. rewrite !Run_unfold.
  by rewrite (GetAllApps_same P Q Hsame), (exec_same P Q Hsame).
Qed.

Lemma noisy_SameAnswers (guids : list string) :
  SameAnswers (demo guids) (noisy guids).
Proof. by split_and!. Qed.

(** [Run_reads_only_the_answers] at a platform and the same platform with
    an error on every command and on the listing. *)
Lemma Run_reads_only_the_answers_witness :
  Run (demo ["web"%string; "idle"%string]) insertionSorter (sequential 2)
  = Run (noisy ["web"%string; "idle"%string]) insertionSorter (sequential 2).
Proof.
  apply (Run_reads_only_the_answers
           (demo ["web"%string; "idle"%string])
           (noisy ["web"%string; "idle"%string])).
  apply noisy_SameAnswers.
Defined.

(** ** The average *)

Lemma quot_between (t n lo hi : Z) :
  0 < n -> n * lo <= t <= n * hi -> lo <= Z.quot t n <= hi.
Proof.
  intros Hn [Hlo Hhi]. destruct (Z.le_gt_cases 0 t) as [Ht|Ht].
  - rewrite Z.quot_div_nonneg by lia. split.
    + by apply Z.div_le_lower_bound.
    + by apply Z.div_le_upper_bound.
  - replace t with (- - t) by lia. rewrite Z.quot_opp_l by lia.
    rewrite Z.quot_div_nonneg by lia.
    assert ((- t) / n <= - lo) by (apply Z.div_le_upper_bound; lia).
    assert (- hi <= (- t) / n) by (apply Z.div_le_lower_bound; lia).
    lia.
Qed.

Lemma exactUsage_between (visited : list AppStat) (lo hi : Z) :
  (forall stat, stat ∈ visited -> lo <= usage stat <= hi) ->
  Z.of_nat (length visited) * lo <= exactUsage visited
  <= Z.of_nat (length visited) * hi.
Proof.
  induction visited as [|stat visited IH]; intros Hall.
  - simpl. lia.
  - assert (lo <= usage stat <= hi) as Hstat by (apply Hall; left).
    assert (Z.of_nat (length visited) * lo <= exactUsage visited
            <= Z.of_nat (length visited) * hi) as Hrest.
    { apply IH. intros s Hs. apply Hall. by right. }
    unfold usage in Hstat. simpl exactUsage. simpl length. lia.
Qed.

Lemma len_entries (stats : gmap string AppStat) :
  len stats = Z.of_nat (length (entries stats)).
Proof.
  unfold len, entries. by rewrite length_fmap, length_map_to_list.
Qed.

(** When the sum of the usage fits an [int], the average of a summary lies
    between the smallest and the largest usage an instance reports, the
    truncation notwithstanding. *)
Theorem average_between_the_extremes
    (P : Platform) (cfApp : AppSearchResoures) (md : AppSearchMetaData)
    (s : appStatSummary) (lo hi : Z) :
  Metadata cfApp = Some md ->
  worker P (Some cfApp) = Ok (Some s) ->
  Int.inRange (exactUsage (entries (GetAppStats P (Guid md)).1)) ->
  (forall stat, stat ∈ entries (GetAppStats P (Guid md)).1 ->
                lo <= usage stat <= hi) ->
  lo <= AvgMemoryUse s <= hi.
Proof.
  intros Hmd Hw Hrange Hall.
  apply worker_Produced in Hw
    as [cfApp' md' en [= <-] Hmd' Hen Herr Hrunning ->].
  assert (md' = md) as -> by congruence. simpl.
  pose proof (len_pos_of_running _ Hrunning) as Hlen.
  apply quot_between; [done|].
  unfold totalUsage. rewrite sumUsage_exact, wrap_id by done.
  rewrite len_entries. by apply exactUsage_between.
Qed.

(** [average_between_the_extremes] at [web]: 100 <= 200 <= 300. *)
Lemma average_between_the_extremes_witness :
  100 <= AvgMemoryUse (row "web" 600 200 three) <= 300.
Proof.
  apply (average_between_the_extremes (demo [])
           {| Metadata := Some {| Guid := "web"; Url := EmptyString |};
              Entity := Some {| entityName := "web"; entityInstances := 1;
                                SpaceGuid := "space" |} |}
           {| Guid := "web"; Url := EmptyString |}).
  - reflexivity.
  - vm_compute. reflexivity.
  - vm_compute. split; discriminate.
  - intros stat Hstat.
    assert (stat ∈ [instance "RUNNING" 600 100; instance "RUNNING" 600 200;
                    instance "RUNNING" 600 300]) as Hin.
    { rewrite <- (entries_three (instance "RUNNING" 600 100)
                    (instance "RUNNING" 600 200) (instance "RUNNING" 600 300)).
      exact Hstat. }
    repeat (apply elem_of_cons in Hin as [->|Hin]; [vm_compute; split; discriminate|]).
    by apply elem_of_nil in Hin.
Defined.

(** ** Printing *)

(** A printed row has one cell for each column of the header and shows
    the name, the space, the allocation and the average without loss: two
    summaries print the same row exactly when they agree on these four and
    their ratios print alike. The guid and the instance count are not
    shown. *)
Theorem toValueList_shows_four_fields
    (Sprintf_f : spec_float -> string) (s1 s2 : appStatSummary) :
  length (toValueList Sprintf_f s1) = length header /\
  (toValueList Sprintf_f s1 = toValueList Sprintf_f s2 <->
   Name s1 = Name s2 /\ Space s1 = Space s2 /\
   MemoryAlloc s1 = MemoryAlloc s2 /\ AvgMemoryUse s1 = AvgMemoryUse s2 /\
   Sprintf_f (Ratio s1) = Sprintf_f (Ratio s2)).
Proof.
  split; [reflexivity|]. unfold toValueList, Sprintf_d. split.
  - intros [= Hname Hspace Halloc Havg Hratio].
    apply (inj pretty) in Halloc. apply (inj pretty) in Havg. done.
  - intros (-> & -> & -> & -> & ->). done.
Qed.

(** The table has one row for each summary, in the order of the sorted
    slice, each as wide as the header. *)
Lemma tableRows_shape (Sprintf_f : spec_float -> string)
    (rows : list appStatSummary) :
  length (tableRows Sprintf_f rows) = length rows /\
  Forall (fun cells => length cells = length header) (tableRows Sprintf_f rows).
Proof.
  unfold tableRows. split; [apply length_fmap|].
  apply Forall_fmap, Forall_forall. by intros s _.
Qed.

(** ** The order of the dispatches *)

Lemma exec_pending_suffix (P : Platform) (apps : list (option AppSearchResoures))
    (sched : list event) :
  exists dispatched,
    apps = dispatched ++ pending (exec P sched (start apps)).
Proof.
  assert (forall st, (exists d, apps = d ++ pending st) ->
            exists d, apps = d ++ pending (exec P sched st)) as Hgen.
  { induction sched as [|ev sched IH]; intros st Hst; [done|].
    simpl. apply IH. unfold perform, step.
    destruct (phase st); try done.
    destruct ev as [|i| |rows|i stat loaded|]; simpl.
    - destruct (pending st) as [|app rest] eqn:Hpending; simpl;
        [by rewrite Hpending|].
      case_bool_decide; simpl; [|by rewrite Hpending].
      destruct Hst as [d ->]. exists (d ++ [app]). by rewrite <- app_assoc.
    - destruct (running st !! i) as [g|]; simpl; [|done].
      destruct g as [app|stat|stat loaded]; simpl; try done.
      by destruct (worker P app) as [[s|]|p].
    - destruct (pending st) eqn:Hpending, (running st); simpl;
        by rewrite ?Hpending.
    - by destruct (overlap st).
    - destruct (overlap st); simpl; [|done].
      by destruct (running st !! i) as [[app|s|s l]|].
    - by destruct (overlap st). }
  apply Hgen. by exists [].
Qed.

(** The elements of the listing are dispatched in the order of the
    listing, each once: in every state the elements still to dispatch are
    a suffix of the listing, and the ones before it are exactly the
    goroutines that run or are done. *)
Theorem dispatch_follows_the_listing
    (P : Platform) (apps : list (option AppSearchResoures))
    (sched : list event) :
  exists dispatched,
    apps = dispatched ++ pending (exec P sched (start apps)) /\
    length dispatched
    = (length (running (exec P sched (start apps)))
       + finished (exec P sched (start apps)))%nat.
Proof.
  destruct (exec_pending_suffix P apps sched) as [dispatched Happs].
  exists dispatched. split; [done|].
  pose proof (inv_count _ _ _ (reachable_Invariant P apps sched)) as Hcount.
  pose proof (f_equal length Happs) as Hlen. rewrite length_app in Hlen. lia.
Qed.

(** ** Ties *)

(** The order of the table is left open only by ties: when no ratio is
    NaN and no two rows have the same ratio, two runs that print the same
    rows print them in the same order, whatever the sorters and whatever
    the schedules were. *)
Theorem ranking_is_determined_without_ties
    (P : Platform) (srt1 srt2 : Sorter) (sched1 sched2 : list event)
    (rows1 rows2 : list appStatSummary) :
  Run P srt1 sched1 = Returned rows1 ->
  Run P srt2 sched2 = Returned rows2 ->
  rows1 ≡ₚ rows2 ->
  (forall s, s ∈ rows1 -> F64.isNaN (Ratio s) = false) ->
  (forall a b, a ∈ rows1 -> b ∈ rows1 ->
               F64.ltb (Ratio a) (Ratio b) = false ->
               F64.ltb (Ratio b) (Ratio a) = false -> a = b) ->
  rows1 = rows2.
Proof.
  intros [_ H1]%Run_Returned [_ H2]%Run_Returned Hperm Hnan Hties.
  assert (Ascending Less rows1) as Hs1.
  { rewrite H1. apply Sort_Ascending, Less_Ordering.
    intros s Hs. apply Hnan. by rewrite H1, Sort_Permutation. }
  assert (Ascending Less rows2) as Hs2.
  { rewrite H2. apply Sort_Ascending, Less_Ordering.
    intros s Hs. apply Hnan. by rewrite Hperm, H2, Sort_Permutation. }
  eapply StronglySorted_unique_strong; [|exact Hs1|exact Hs2|exact Hperm].
  intros a b Ha Hb Hab Hba. unfold Less in *.
  apply Hties; [done|by rewrite Hperm|done|done].
Qed.

(** [ranking_is_determined_without_ties] at two applications run in the
    two orders. *)
Lemma ranking_is_determined_without_ties_witness :
  [row "idle" 1024 0 positiveInfinity; row "web" 600 200 three]
  = [row "idle" 1024 0 positiveInfinity; row "web" 600 200 three].
Proof.
  apply (ranking_is_determined_without_ties
           (demo ["web"%string; "idle"%string]) insertionSorter insertionSorter
           (sequential 2)
           [Dispatch; Dispatch; Advance 1; Advance 1; Advance 1;
            Advance 0; Advance 0; Advance 0; Join]).
  - vm_compute. reflexivity.
  - vm_compute. reflexivity.
  - done.
  - intros s Hs. repeat (apply elem_of_cons in Hs as [->|Hs]; [reflexivity|]).
    by apply elem_of_nil in Hs.
  - intros a b Ha Hb.
    repeat (apply elem_of_cons in Ha as [->|Ha]);
      repeat (apply elem_of_cons in Hb as [->|Hb]);
      try (by apply elem_of_nil in Ha); try (by apply elem_of_nil in Hb);
      vm_compute; congruence.
Defined.
